(** * Transport chain, registry ownership and resource tracking

    A shallow embedding of the phase-1 additions to [tcp_transport]
    ([PHASE1_TRANSPORT_C_ADDITIONS.c], [PHASE1_TRANSPORT_INTERNAL_ADDITIONS.h],
    [PHASE1_TRANSPORT_API_ADDITIONS.h]) and of the resource tracker used by
    [PHASE1_WEBSOCKET_INTEGRATION.c].

    Transport handles are addresses into a finite heap of
    [esp_transport_item_t] records; [NULL] is [None].  The C functions become
    state-passing functions over a [world]; dereferencing an address that is
    not allocated is a [Fault], and recursion or loops over pointer
    structures take a fuel argument ([Diverge] when it runs out). *)

From stdpp Require Import gmap strings list.

Open Scope Z_scope.

(** ** Error codes *)

Abbreviation esp_err_t := Z (only parsing).

(** Modelled from the spec: [esp_err.h] is not among the sources.  The
    success code; the development only relies on the error codes below
    differing from it. *)
Definition ESP_OK : esp_err_t := 0.

(** Modelled from the spec: the generic failure code of [esp_err.h]. *)
Definition ESP_FAIL : esp_err_t := -1.

(** Modelled from the spec: [OutOfMemory], with its [esp_err.h] value. *)
Definition ESP_ERR_NO_MEM : esp_err_t := 257.

(** Modelled from the spec: [InvalidArgument], with its [esp_err.h] value. *)
Definition ESP_ERR_INVALID_ARG : esp_err_t := 258.

(** [err != ESP_OK] *)
Definition failed (e : esp_err_t) : bool := negb (e =? ESP_OK).

(** ** Data model *)

Abbreviation handle := positive (only parsing).

(** [esp_transport_ownership_t] *)
Inductive esp_transport_ownership_t :=
  | ESP_TRANSPORT_OWNERSHIP_NONE
  | ESP_TRANSPORT_OWNERSHIP_SHARED
  | ESP_TRANSPORT_OWNERSHIP_EXCLUSIVE.

Definition ownership_value (o : esp_transport_ownership_t) : Z :=
  match o with
  | ESP_TRANSPORT_OWNERSHIP_NONE => 0
  | ESP_TRANSPORT_OWNERSHIP_SHARED => 1
  | ESP_TRANSPORT_OWNERSHIP_EXCLUSIVE => 2
  end.

Definition is_exclusive (o : esp_transport_ownership_t) : bool :=
  ownership_value o =? ownership_value ESP_TRANSPORT_OWNERSHIP_EXCLUSIVE.

(** A [trans_func] callback ([_close], [_destroy]) is observed through the
    code it returns for the transport it is applied to.  By the function
    table contract a layer's callback manages only the layer's own context,
    so it leaves the transport records and the registry alone; every
    invocation is recorded in the [calls] log of the world. *)
Definition trans_func := handle -> Z.

(** [struct esp_transport_item_t].  Function pointers that the modelled code
    never calls, and the opaque pointers, are kept as optional addresses. *)
Record esp_transport_item_t := mk_item {
  port : Z;
  scheme : option string;
  data : option positive;
  _connect : option positive;
  _read : option positive;
  _write : option positive;
  _close : option trans_func;
  _poll_read : option positive;
  _poll_write : option positive;
  _destroy : option trans_func;
  _connect_async : option positive;
  _parent_transfer : option positive;
  _get_socket : option positive;
  keep_alive_cfg : option positive;
  foundation : option positive;
  ownership : esp_transport_ownership_t;
  parent : option handle;
  next : option handle
}.

Definition set_scheme (s : option string) (it : esp_transport_item_t) :=
  mk_item (port it) s (data it) (_connect it) (_read it) (_write it)
    (_close it) (_poll_read it) (_poll_write it) (_destroy it)
    (_connect_async it) (_parent_transfer it) (_get_socket it)
    (keep_alive_cfg it) (foundation it) (ownership it) (parent it) (next it).

Definition set_ownership (o : esp_transport_ownership_t) (it : esp_transport_item_t) :=
  mk_item (port it) (scheme it) (data it) (_connect it) (_read it) (_write it)
    (_close it) (_poll_read it) (_poll_write it) (_destroy it)
    (_connect_async it) (_parent_transfer it) (_get_socket it)
    (keep_alive_cfg it) (foundation it) o (parent it) (next it).

Definition set_parent (p : option handle) (it : esp_transport_item_t) :=
  mk_item (port it) (scheme it) (data it) (_connect it) (_read it) (_write it)
    (_close it) (_poll_read it) (_poll_write it) (_destroy it)
    (_connect_async it) (_parent_transfer it) (_get_socket it)
    (keep_alive_cfg it) (foundation it) (ownership it) p (next it).

Definition set_next (n : option handle) (it : esp_transport_item_t) :=
  mk_item (port it) (scheme it) (data it) (_connect it) (_read it) (_write it)
    (_close it) (_poll_read it) (_poll_write it) (_destroy it)
    (_connect_async it) (_parent_transfer it) (_get_socket it)
    (keep_alive_cfg it) (foundation it) (ownership it) (parent it) n.

(** What [calloc(1, sizeof(struct esp_transport_item_t))] hands out: all
    bytes zero.  The zero ownership value is [ESP_TRANSPORT_OWNERSHIP_NONE]. *)
Definition zeroed_item : esp_transport_item_t :=
  mk_item 0 None None None None None None None None None None None None None
    None ESP_TRANSPORT_OWNERSHIP_NONE None None.

(** The head of the registry's [STAILQ].  [stqh_last] points at the [next]
    field of the last element, or at [stqh_first] of the head itself
    ([None]) while the queue is empty. *)
Record esp_transport_list_t := mk_list {
  stqh_first : option handle;
  stqh_last : option handle
}.

(** Callback invocations, in the order they happen. *)
Inductive call :=
  | CallDestroy (t : handle)
  | CallOp (t : handle).

Global Instance call_eq_dec : EqDecision call.
Proof. solve_decision. Defined.

Record world := mk_world {
  transports : gmap positive esp_transport_item_t;
  registries : gmap positive esp_transport_list_t;
  calls : list call
}.

(** ** The state monad of the embedding *)

Inductive outcome (A : Type) :=
  | Ret (a : A) (w : world)
  | Fault
  | Diverge.
Arguments Ret {A} a w.
Arguments Fault {A}.
Arguments Diverge {A}.

Definition M (A : Type) := world -> outcome A.

Definition ret {A} (a : A) : M A := fun w => Ret a w.

Definition bind {A B} (m : M A) (k : A -> M B) : M B :=
  fun w => match m w with
           | Ret a w' => k a w'
           | Fault => Fault
           | Diverge => Diverge
           end.

Notation "'let*' x ':=' m 'in' k" := (bind m (fun x => k))
  (at level 10, x name, m at level 100, k at level 200).

Definition diverge {A} : M A := fun _ => Diverge.

(** [*t] for a transport handle *)
Definition load (t : handle) : M esp_transport_item_t :=
  fun w => match transports w !! t with
           | Some it => Ret it w
           | None => Fault
           end.

(** [*t = it] *)
Definition store (t : handle) (it : esp_transport_item_t) : M unit :=
  fun w => match transports w !! t with
           | Some _ =>
               Ret tt (mk_world (<[t := it]> (transports w)) (registries w) (calls w))
           | None => Fault
           end.

(** [free(t)] of a transport record (its scheme label goes with it) *)
Definition free (t : handle) : M unit :=
  fun w => match transports w !! t with
           | Some _ =>
               Ret tt (mk_world (delete t (transports w)) (registries w) (calls w))
           | None => Fault
           end.

Definition load_list (h : handle) : M esp_transport_list_t :=
  fun w => match registries w !! h with
           | Some l => Ret l w
           | None => Fault
           end.

Definition store_list (h : handle) (l : esp_transport_list_t) : M unit :=
  fun w => match registries w !! h with
           | Some _ =>
               Ret tt (mk_world (transports w) (<[h := l]> (registries w)) (calls w))
           | None => Fault
           end.

Definition free_list (h : handle) : M unit :=
  fun w => match registries w !! h with
           | Some _ =>
               Ret tt (mk_world (transports w) (delete h (registries w)) (calls w))
           | None => Fault
           end.

Definition record (c : call) : M unit :=
  fun w => Ret tt (mk_world (transports w) (registries w) (calls w ++ [c])).

(** Calling a [trans_func] stored in a transport: the call is logged and the
    callback's code returned. *)
Definition invoke (mk : handle -> call) (f : handle -> Z) (t : handle) : M Z :=
  let* _ := record (mk t) in ret (f t).

(** ** [sys/queue.h] singly-linked tail queue, as used on the [next] field *)

Definition STAILQ_INIT (h : handle) : M unit :=
  let* _ := load_list h in
  store_list h (mk_list None None).

Definition STAILQ_INSERT_TAIL (h : handle) (t : handle) : M unit :=
  let* it := load t in
  let* _ := store t (set_next None it) in
  let* hd := load_list h in
  let* _ := (match stqh_last hd with
             | None => store_list h (mk_list (Some t) (stqh_last hd))
             | Some l =>
                 let* lt := load l in
                 store l (set_next (Some t) lt)
             end) in
  let* hd := load_list h in
  store_list h (mk_list (stqh_first hd) (Some t)).

(** ** Registry: [esp_transport_list_add_ex], [esp_transport_list_add] *)

(** [scheme_mem] tells whether the [calloc] for the scheme copy succeeds. *)
Definition esp_transport_list_add_ex (scheme_mem : bool)
    (h : option handle) (t : option handle) (scheme_arg : string)
    (ownership_arg : esp_transport_ownership_t) : M esp_err_t :=
  match h, t with
  | Some h, Some t =>
      let* it := load t in
      let* _ := store t (set_ownership ownership_arg it) in
      let* it := load t in
      let* _ := store t (set_scheme (if scheme_mem then Some EmptyString else None) it) in
      let* it := load t in
      match scheme it with
      | None => ret ESP_ERR_NO_MEM
      | Some _ =>
          let* _ := store t (set_scheme (Some scheme_arg) it) in
          let* _ := STAILQ_INSERT_TAIL h t in
          ret ESP_OK
      end
  | _, _ => ret ESP_ERR_INVALID_ARG
  end.

Definition esp_transport_list_add (scheme_mem : bool)
    (h : option handle) (t : option handle) (scheme_arg : string) : M esp_err_t :=
  esp_transport_list_add_ex scheme_mem h t scheme_arg
    ESP_TRANSPORT_OWNERSHIP_EXCLUSIVE.

(** Modelled from the spec: [esp_transport_destroy], the single-node destroy
    that the registry cleanup calls, is not among the sources.  It invokes the
    node's own [destroy] callback and releases the node's own allocation
    (scheme label and record); it makes no call into chain-wide teardown.  A
    callback error is passed through unchanged and an absent handle is an
    invalid argument. *)
Definition esp_transport_destroy (t : option handle) : M esp_err_t :=
  match t with
  | None => ret ESP_ERR_INVALID_ARG
  | Some t =>
      let* it := load t in
      let* err := (match _destroy it with
                   | Some f => invoke CallDestroy f t
                   | None => ret ESP_OK
                   end) in
      let* _ := free t in
      ret err
  end.

(** The [while (item != NULL)] loop of [esp_transport_list_clean]. *)
Fixpoint list_clean_loop (fuel : nat) (item : option handle) : M unit :=
  match item with
  | None => ret tt
  | Some a =>
      match fuel with
      | O => diverge
      | S fuel' =>
          let* it := load a in
          let tmp := next it in
          let* _ := (if is_exclusive (ownership it) then
                       let* _ := esp_transport_destroy (Some a) in ret tt
                     else
                       match scheme it with
                       | Some _ => store a (set_scheme None it)
                       | None => ret tt
                       end) in
          list_clean_loop fuel' tmp
      end
  end.

Definition esp_transport_list_clean (fuel : nat) (h : option handle) : M esp_err_t :=
  match h with
  | None => ret ESP_ERR_INVALID_ARG
  | Some h =>
      let* hd := load_list h in
      let* _ := list_clean_loop fuel (stqh_first hd) in
      let* _ := STAILQ_INIT h in
      ret ESP_OK
  end.

(** Modelled from the spec: [esp_transport_list_destroy] is not among the
    sources.  The registry's full teardown is [clean] followed by releasing
    the registry's own backing storage. *)
Definition esp_transport_list_destroy (fuel : nat) (h : option handle) : M esp_err_t :=
  let* err := esp_transport_list_clean fuel h in
  match h with
  | Some a => let* _ := free_list a in ret err
  | None => ret err
  end.

(** ** Chain operations *)

(** [esp_transport_chain_execute].  The operation is a C function pointer;
    like a [trans_func] it is observed through the code it returns for the
    transport it is applied to, and each application is logged as [CallOp]. *)
Fixpoint esp_transport_chain_execute (fuel : nat) (t : option handle)
    (op : option (handle -> Z)) (aggregate_errors : bool) : M esp_err_t :=
  match fuel with
  | O => diverge
  | S fuel' =>
      match t, op with
      | Some t, Some op =>
          let* it := load t in
          let* err := invoke CallOp op t in
          let first_error := if failed err then err else ESP_OK in
          if failed err && negb aggregate_errors then ret first_error
          else
            match parent it with
            | Some p =>
                let* parent_err :=
                  esp_transport_chain_execute fuel' (Some p) (Some op)
                    aggregate_errors in
                let first_error :=
                  if failed parent_err && (first_error =? ESP_OK)
                  then parent_err else first_error in
                let err :=
                  if failed parent_err && aggregate_errors
                  then parent_err else err in
                ret (if aggregate_errors then err else first_error)
            | None => ret (if aggregate_errors then err else first_error)
            end
      | _, _ => ret ESP_ERR_INVALID_ARG
      end
  end.

(** [transport_close_wrapper], for a transport whose record is [it] *)
Definition transport_close_wrapper (hp : gmap positive esp_transport_item_t)
    (t : handle) : esp_err_t :=
  match hp !! t with
  | Some it =>
      match _close it with
      | Some f => if f t =? 0 then ESP_OK else ESP_FAIL
      | None => ESP_OK
      end
  | None => ESP_OK
  end.

Definition esp_transport_close_chain (fuel : nat) (t : option handle) : M esp_err_t :=
  fun w =>
    esp_transport_chain_execute fuel t
      (Some (transport_close_wrapper (transports w))) false w.

(** [esp_transport_destroy_chain] *)
Fixpoint esp_transport_destroy_chain (fuel : nat) (t : option handle) : M esp_err_t :=
  match fuel with
  | O => diverge
  | S fuel' =>
      match t with
      | None => ret ESP_ERR_INVALID_ARG
      | Some t =>
          let* it := load t in
          let parent := parent it in
          let* err := (match _destroy it with
                       | Some f => invoke CallDestroy f t
                       | None => ret ESP_OK
                       end) in
          let* _ := free t in
          match parent with
          | Some p =>
              let* parent_err := esp_transport_destroy_chain fuel' (Some p) in
              ret (if failed parent_err && (err =? ESP_OK) then parent_err else err)
          | None => ret err
          end
      end
  end.

(** [esp_transport_get_parent] *)
Definition esp_transport_get_parent (t : option handle) : M (option handle) :=
  match t with
  | Some t => let* it := load t in ret (parent it)
  | None => ret None
  end.

(** [esp_transport_init].  [mem] is what [calloc] returns: [None] when the
    allocation fails, else the address of a zeroed record. *)
Definition esp_transport_init (mem : option handle) : M (option handle) :=
  match mem with
  | None => ret None
  | Some a =>
      fun w =>
        let w1 := mk_world (<[a := zeroed_item]> (transports w))
                    (registries w) (calls w) in
        (let* it := load a in
         let* _ := store a (set_ownership ESP_TRANSPORT_OWNERSHIP_EXCLUSIVE it) in
         let* it := load a in
         let* _ := store a (set_parent None it) in
         ret (Some a)) w1
  end.

(** ** Resource tracker *)

Section ResourceTracker.
Context {V Cfg : Type}.

(** Modelled from the spec: [esp_transport_resources.h] and the tracker's
    implementation are not among the sources, which only call it.  A slot
    has a [target] (the current value of the tracked field, [None] when
    empty), an optional [init] function of the target and the
    configuration, a [cleanup] function of the target, and the
    [initialized] flag.  A node's sentinel-terminated slot array is the
    list of the slots before the sentinel. *)
Record transport_resource_t := mk_slot {
  target : option V;
  init : option (option V -> Cfg -> esp_err_t * option V);
  cleanup : option V -> option V;
  initialized : bool
}.

(** Modelled from the spec: the callback invocations of the tracker, by slot
    index. *)
Inductive slot_call :=
  | InitCalled (i : nat)
  | CleanupCalled (i : nat).

(** Modelled from the spec: after a successful [init] the target holds the
    resource and the slot is marked. *)
Definition slot_mark (v : option V) (s : transport_resource_t) :=
  mk_slot v (init s) (cleanup s) true.

(** Modelled from the spec: a failed [init] leaves the slot unmarked, with
    whatever it wrote to the target. *)
Definition slot_write (v : option V) (s : transport_resource_t) :=
  mk_slot v (init s) (cleanup s) (initialized s).

(** Modelled from the spec: once [cleanup] was invoked on a slot, the flag is
    cleared and the target emptied. *)
Definition slot_release (s : transport_resource_t) :=
  mk_slot None (init s) (cleanup s) false.

Definition initialized_count (slots : list transport_resource_t) : nat :=
  length (filter (fun s => initialized s = true) slots).

(** Modelled from the spec: the rollback of a failed [init].  [done] holds
    the slots already walked, the latest first, each with a flag telling
    whether this call initialized it; [cleanup] is invoked on exactly the
    flagged ones, in that (reverse) order.  The slot at the head of [done]
    has index [length done - 1]. *)
Fixpoint rollback (done : list (bool * transport_resource_t))
    : list (bool * transport_resource_t) * list slot_call :=
  match done with
  | [] => ([], [])
  | (mine, s) :: rest =>
      let '(rest', log) := rollback rest in
      if mine
      then ((mine, slot_release s) :: rest', CleanupCalled (length rest) :: log)
      else ((mine, s) :: rest', log)
  end.

(** Modelled from the spec: the walk of [init] over the slots not yet
    visited.  A slot that is already initialized, or has no [init]
    function, is skipped; a successful [init] marks the slot; a failing one
    triggers the rollback and the failure is returned. *)
Fixpoint init_walk (cfg : Cfg) (done : list (bool * transport_resource_t))
    (todo : list transport_resource_t) (log : list slot_call)
    : esp_err_t * list transport_resource_t * list slot_call :=
  match todo with
  | [] => (ESP_OK, reverse (snd <$> done), log)
  | s :: todo' =>
      if initialized s then init_walk cfg ((false, s) :: done) todo' log
      else
        match init s with
        | None => init_walk cfg ((false, s) :: done) todo' log
        | Some f =>
            let '(err, v) := f (target s) cfg in
            let log := log ++ [InitCalled (length done)] in
            if failed err then
              let '(done', undo) := rollback done in
              (err, reverse (snd <$> done') ++ slot_write v s :: todo',
               log ++ undo)
            else init_walk cfg ((true, slot_mark v s) :: done) todo' log
        end
  end.

(** Modelled from the spec: [ResourceTracker.init(slots, config)]. *)
Definition transport_resources_init (slots : list transport_resource_t)
    (cfg : Cfg) : esp_err_t * list transport_resource_t * list slot_call :=
  init_walk cfg [] slots [].

(** Modelled from the spec: [ResourceTracker.cleanup(slots)], a walk in
    reverse order ([i] is the index of the first slot of [slots]): every
    initialized slot has its [cleanup] invoked, its flag cleared and its
    target emptied. *)
Fixpoint cleanup_walk (i : nat) (slots : list transport_resource_t)
    : list transport_resource_t * list slot_call :=
  match slots with
  | [] => ([], [])
  | s :: rest =>
      let '(rest', log) := cleanup_walk (S i) rest in
      if initialized s
      then (slot_release s :: rest', log ++ [CleanupCalled i])
      else (s :: rest', log)
  end.

(** Modelled from the spec: [cleanup] on a node's whole slot sequence. *)
Definition transport_resources_cleanup (slots : list transport_resource_t)
    : list transport_resource_t * list slot_call :=
  cleanup_walk 0 slots.

(** The slot states after each [cleanup] of a run
    [init; cleanup; init; cleanup; ...], one round per configuration. *)
Fixpoint reconnect_cycles (cfgs : list Cfg) (slots : list transport_resource_t)
    : list (list transport_resource_t) :=
  match cfgs with
  | [] => []
  | cfg :: cfgs' =>
      let '(_, connected, _) := transport_resources_init slots cfg in
      let closed := fst (transport_resources_cleanup connected) in
      closed :: reconnect_cycles cfgs' closed
  end.

(** A slot that [init] acts on: not yet initialized, with an [init]
    function. *)
Definition wants_init (s : transport_resource_t) : bool :=
  negb (initialized s) &&
  match init s with Some _ => true | None => false end.

(** The indices of the slots of [pre] that [init] acts on, [i] being the
    index of the first slot of [pre]. *)
Fixpoint fresh_slots (i : nat) (pre : list transport_resource_t) : list nat :=
  match pre with
  | [] => []
  | s :: rest =>
      if wants_init s then i :: fresh_slots (S i) rest
      else fresh_slots (S i) rest
  end.

(** What the rollback leaves of a slot that the failed call had visited. *)
Definition rolled_back (s : transport_resource_t) : transport_resource_t :=
  if wants_init s then slot_release s else s.

(** What [cleanup] leaves of a slot. *)
Definition cleaned (s : transport_resource_t) : transport_resource_t :=
  if initialized s then slot_release s else s.
End ResourceTracker.

Arguments transport_resource_t : clear implicits.

(** Sample slots over resource identifiers: a buffer whose allocation
    succeeds, one whose allocation fails, and a field that layer code has
    populated and marked by hand (it has no [init] function). *)
Definition alloc_ok (_ : option nat) (_ : unit) : esp_err_t * option nat :=
  (ESP_OK, Some 1%nat).
Definition alloc_fails (_ : option nat) (_ : unit) : esp_err_t * option nat :=
  (ESP_ERR_NO_MEM, None).
Definition free_target (_ : option nat) : option nat := None.

Definition buffer_slot : transport_resource_t nat unit :=
  mk_slot None (Some alloc_ok) free_target false.
Definition failing_slot : transport_resource_t nat unit :=
  mk_slot None (Some alloc_fails) free_target false.
Definition hostname_slot : transport_resource_t nat unit :=
  mk_slot (Some 2%nat) None free_target true.

(** ** Pointer structures and summaries used in the statements *)

(** [linked sel hp start l]: following the [sel] field from [start] through
    the heap [hp] visits exactly the allocated records [l] and ends at [NULL]. *)
Inductive linked (sel : esp_transport_item_t -> option handle)
    (hp : gmap positive esp_transport_item_t) : option handle -> list handle -> Prop :=
  | linked_nil : linked sel hp None []
  | linked_cons a it l :
      hp !! a = Some it ->
      linked sel hp (sel it) l ->
      linked sel hp (Some a) (a :: l).

(** The parent chain of a transport, outermost node first. *)
Definition chain := linked parent.

(** The entries of a registry, in insertion order. *)
Definition stailq := linked next.

(** The world after some more callback invocations. *)
Definition logged (cs : list call) (w : world) : world :=
  mk_world (transports w) (registries w) (calls w ++ cs).

(** The first failing code of [g] along [l], [ESP_OK] if there is none. *)
Fixpoint first_failure (g : handle -> esp_err_t) (l : list handle) : esp_err_t :=
  match l with
  | [] => ESP_OK
  | a :: rest => if failed (g a) then g a else first_failure g rest
  end.

(** The last failing code of [g] along [l], [ESP_OK] if there is none. *)
Fixpoint last_failure (g : handle -> esp_err_t) (l : list handle) : esp_err_t :=
  match l with
  | [] => ESP_OK
  | a :: rest =>
      if failed (last_failure g rest) then last_failure g rest else g a
  end.

(** The nodes of [l] up to and including the first one on which [g] fails. *)
Fixpoint upto_failure (g : handle -> esp_err_t) (l : list handle) : list handle :=
  match l with
  | [] => []
  | a :: rest => if failed (g a) then [a] else a :: upto_failure g rest
  end.

(** What the [_destroy] callback of the record at [a] returns; [ESP_OK] when
    the record has none. *)
Definition destroy_code (hp : gmap positive esp_transport_item_t) (a : handle) : esp_err_t :=
  match hp !! a with
  | Some it => match _destroy it with Some f => f a | None => ESP_OK end
  | None => ESP_OK
  end.

Definition has_destroy (hp : gmap positive esp_transport_item_t) (a : handle) : bool :=
  match hp !! a with
  | Some it => match _destroy it with Some _ => true | None => false end
  | None => false
  end.

Definition owned_exclusively (hp : gmap positive esp_transport_item_t) (a : handle) : bool :=
  match hp !! a with
  | Some it => is_exclusive (ownership it)
  | None => false
  end.

(** [it'] is [it] except, possibly, for the scheme label. *)
Definition only_scheme_differs (it it' : esp_transport_item_t) : Prop :=
  port it' = port it /\ data it' = data it /\
  _connect it' = _connect it /\ _read it' = _read it /\
  _write it' = _write it /\ _close it' = _close it /\
  _poll_read it' = _poll_read it /\ _poll_write it' = _poll_write it /\
  _destroy it' = _destroy it /\ _connect_async it' = _connect_async it /\
  _parent_transfer it' = _parent_transfer it /\
  _get_socket it' = _get_socket it /\
  keep_alive_cfg it' = keep_alive_cfg it /\ foundation it' = foundation it /\
  ownership it' = ownership it /\ parent it' = parent it /\ next it' = next it.

(** The heap after the records [l] were released. *)
Definition released (l : list handle) (hp : gmap positive esp_transport_item_t) :=
  foldl (fun m a => delete a m) hp l.

(** ** The end-to-end scenario: [ws -> ssl -> tcp] behind a registry *)

Definition tcp : handle := 1%positive.
Definition ssl : handle := 2%positive.
Definition ws : handle := 3%positive.
Definition registry : handle := 1%positive.

(** A layer as its constructor leaves it: the record of [esp_transport_init]
    with a [_destroy] callback that succeeds and the given parent. *)
Definition layer (p : option handle) : esp_transport_item_t :=
  mk_item 0 None None None None None None None None (Some (fun _ => ESP_OK))
    None None None None None ESP_TRANSPORT_OWNERSHIP_EXCLUSIVE p None.

Definition layers : world :=
  mk_world
    (<[ws := layer (Some ssl)]> (<[ssl := layer (Some tcp)]> (<[tcp := layer None]> ∅)))
    (<[registry := mk_list None None]> ∅)
    [].

(** Register [tcp] and [ssl] with [NONE] and [ws] with [EXCLUSIVE]. *)
Definition register_layers : M esp_err_t :=
  let* _ := esp_transport_list_add_ex true (Some registry) (Some tcp) "_tcp"
              ESP_TRANSPORT_OWNERSHIP_NONE in
  let* _ := esp_transport_list_add_ex true (Some registry) (Some ssl) "_ssl"
              ESP_TRANSPORT_OWNERSHIP_NONE in
  esp_transport_list_add_ex true (Some registry) (Some ws) "wss"
    ESP_TRANSPORT_OWNERSHIP_EXCLUSIVE.

(** The world once the three layers are registered. *)
Definition registered : world :=
  match register_layers layers with
  | Ret _ w => w
  | _ => layers
  end.

(** An operation that fails on the middle layer only. *)
Definition fails_on_ssl (a : handle) : esp_err_t :=
  if (a =? ssl)%positive then ESP_FAIL else ESP_OK.

(** ... then tear the registry down. *)
Definition registry_teardown : outcome esp_err_t :=
  (let* _ := register_layers in
   esp_transport_list_destroy 3 (Some registry)) layers.

(** The same chain torn down through [esp_transport_destroy_chain]. *)
Definition chain_teardown : outcome esp_err_t :=
  (let* _ := register_layers in
   esp_transport_destroy_chain 3 (Some ws)) layers.

Definition calls_of {A} (o : outcome A) : option (list call) :=
  match o with
  | Ret _ w => Some (calls w)
  | _ => None
  end.

Definition code_of {A} (o : outcome A) : option A :=
  match o with
  | Ret a _ => Some a
  | _ => None
  end.

(** The handles still allocated in the outcome, among [candidates]. *)
Definition live_of {A} (candidates : list handle) (o : outcome A) : list handle :=
  match o with
  | Ret _ w => filter (fun a => is_Some (transports w !! a)) candidates
  | _ => []
  end.

(** ** Registry queues with their tail pointer *)

(** A registry head [hd] describes the entries [l]: following [next] from
    [stqh_first] visits [l], and [stqh_last] designates the last entry (the
    head itself while there is none). *)
Definition wf_queue (hp : gmap positive esp_transport_item_t)
    (hd : esp_transport_list_t) (l : list handle) : Prop :=
  stailq hp (stqh_first hd) l /\ stqh_last hd = last l.

(** [segment sel hp start l stop]: following [sel] from [start] visits the
    allocated records [l] and arrives at [stop]. *)
Inductive segment (sel : esp_transport_item_t -> option handle)
    (hp : gmap positive esp_transport_item_t)
    : option handle -> list handle -> option handle -> Prop :=
  | segment_nil stop : segment sel hp stop [] stop
  | segment_cons a it l stop :
      hp !! a = Some it ->
      segment sel hp (sel it) l stop ->
      segment sel hp (Some a) (a :: l) stop.


(** A record whose parent is itself. *)
Definition self_parent (t : handle) : esp_transport_item_t :=
  set_parent (Some t) (layer None).

(** An address at which no transport is allocated in the scenario. *)
Definition spare : handle := 4%positive.

(** Register the two lower layers only. *)
Definition register_lower : M esp_err_t :=
  let* _ := esp_transport_list_add_ex true (Some registry) (Some tcp) "_tcp"
              ESP_TRANSPORT_OWNERSHIP_NONE in
  esp_transport_list_add_ex true (Some registry) (Some ssl) "_ssl"
    ESP_TRANSPORT_OWNERSHIP_EXCLUSIVE.

Definition lower_registered : world :=
  match register_lower layers with
  | Ret _ w => w
  | _ => layers
  end.

(** A heap with a single transport whose parent is itself. *)
Definition looped : world :=
  mk_world (<[tcp := self_parent tcp]> ∅) ∅ [].



(** * Properties *)

(** ** Running the monad *)

Lemma bind_Ret {A B} (m : M A) (k : A -> M B) w a w' :
  m w = Ret a w' -> bind m k w = k a w'.
Proof. intros H. unfold bind. now rewrite H. Qed.

Lemma load_Some t it w :
  transports w !! t = Some it -> load t w = Ret it w.
Proof. intros H. unfold load. now rewrite H. Qed.

Lemma store_Some t it0 it w :
  transports w !! t = Some it0 ->
  store t it w = Ret tt (mk_world (<[t := it]> (transports w)) (registries w) (calls w)).
Proof. intros H. unfold store. now rewrite H. Qed.

Lemma free_Some t it w :
  transports w !! t = Some it ->
  free t w = Ret tt (mk_world (delete t (transports w)) (registries w) (calls w)).
Proof. intros H. unfold free. now rewrite H. Qed.

Lemma invoke_Ret mk f t w :
  invoke mk f t w = Ret (f t) (logged [mk t] w).
Proof. reflexivity. Qed.

Lemma logged_nil w : logged [] w = w.
Proof. destruct w. unfold logged. simpl. now rewrite app_nil_r. Qed.

Lemma logged_logged cs1 cs2 w : logged cs2 (logged cs1 w) = logged (cs1 ++ cs2) w.
Proof. unfold logged. simpl. now rewrite app_assoc. Qed.

Lemma set_scheme_id it : scheme it = None -> set_scheme None it = it.
Proof. destruct it. simpl. now intros ->. Qed.

Lemma failed_true e : failed e = true <-> e ≠ ESP_OK.
Proof. unfold failed. rewrite negb_true_iff. apply Z.eqb_neq. Qed.

Lemma failed_false e : failed e = false <-> e = ESP_OK.
Proof. unfold failed. rewrite negb_false_iff. apply Z.eqb_eq. Qed.

(** ** Linked structures in a finite heap *)

Section Linked.
Variable sel : esp_transport_item_t -> option handle.

Lemma linked_functional hp start l1 l2 :
  linked sel hp start l1 -> linked sel hp start l2 -> l1 = l2.
Proof.
  intros H1. revert l2.
  induction H1 as [|a it l Ha _ IH]; intros l2 H2; inversion H2; subst.
  - reflexivity.
  - f_equal. apply IH. congruence.
Qed.

Lemma linked_from_member hp start l b :
  linked sel hp start l -> b ∈ l ->
  exists l', linked sel hp (Some b) l' /\ (length l' <= length l)%nat.
Proof.
  induction 1 as [|a it l Ha Hl IH]; intros Hb.
  - inversion Hb.
  - apply elem_of_cons in Hb as [->|Hb].
    + exists (a :: l). split; [econstructor; eauto | lia].
    + destruct (IH Hb) as (l' & Hl' & Hlen). exists l'. split; [done | simpl; lia].
Qed.

Lemma linked_NoDup hp start l : linked sel hp start l -> NoDup l.
Proof.
  induction 1 as [|a it l Ha Hl IH]; constructor; [|done].
  intros Hin.
  destruct (linked_from_member _ _ _ _ Hl Hin) as (l' & Hl' & Hlen).
  assert (l' = a :: l) as ->
    by (eapply linked_functional; [done | econstructor; eauto]).
  simpl in Hlen. lia.
Qed.

Lemma linked_live hp start l b :
  linked sel hp start l -> b ∈ l -> is_Some (hp !! b).
Proof.
  induction 1 as [|a it l Ha Hl IH]; intros Hb.
  - inversion Hb.
  - apply elem_of_cons in Hb as [->|Hb]; eauto.
Qed.

(** Only the [sel] fields of the records on the path matter. *)
Lemma linked_frame hp hp' start l :
  linked sel hp start l ->
  (forall b it, b ∈ l -> hp !! b = Some it ->
     exists it', hp' !! b = Some it' /\ sel it' = sel it) ->
  linked sel hp' start l.
Proof.
  induction 1 as [|a it l Ha Hl IH]; intros Hfr; [constructor|].
  destruct (Hfr a it) as (it' & Ha' & Hsel); [left | done |].
  econstructor; [exact Ha'|]. rewrite Hsel. apply IH.
  intros b itb Hb. apply Hfr. now right.
Qed.

Lemma linked_delete hp a l start :
  linked sel hp start l -> a ∉ l -> linked sel (delete a hp) start l.
Proof.
  intros Hl Ha. eapply linked_frame; [exact Hl|].
  intros b it Hb Hlk. exists it. split; [|done].
  rewrite lookup_delete_ne; [done|]. intros ->. done.
Qed.

Lemma linked_insert hp a it' l start :
  linked sel hp start l -> a ∉ l -> linked sel (<[a := it']> hp) start l.
Proof.
  intros Hl Ha. eapply linked_frame; [exact Hl|].
  intros b it Hb Hlk. exists it. split; [|done].
  rewrite lookup_insert_ne; [done|]. intros ->. done.
Qed.
End Linked.

(** ** Summaries of failures along a list of nodes *)

Lemma first_failure_spec g l :
  (Forall (fun a => g a = ESP_OK) l /\ upto_failure g l = l /\
   first_failure g l = ESP_OK) \/
  (exists pre a post,
     l = pre ++ a :: post /\ upto_failure g l = pre ++ [a] /\
     Forall (fun b => g b = ESP_OK) pre /\ g a ≠ ESP_OK /\
     first_failure g l = g a).
Proof.
  induction l as [|a l IH]; simpl.
  - left. repeat split. constructor.
  - destruct (failed (g a)) eqn:Hf.
    + right. exists [], a, l. apply failed_true in Hf. repeat split; auto.
    + apply failed_false in Hf.
      destruct IH as [(Hall & Hup & Hff) | (pre & b & post & -> & Hup & Hall & Hb & Hff)].
      * left. repeat split; [constructor; auto | congruence | done].
      * right. exists (a :: pre), b, post.
        repeat split; [| constructor; auto | done | done].
        simpl. now rewrite Hup.
Qed.

Lemma last_failure_spec g l :
  (Forall (fun a => g a = ESP_OK) l /\ last_failure g l = ESP_OK) \/
  (exists pre a post,
     l = pre ++ a :: post /\ g a ≠ ESP_OK /\
     Forall (fun b => g b = ESP_OK) post /\ last_failure g l = g a).
Proof.
  induction l as [|a l IH]; simpl.
  - left. split; [constructor | done].
  - destruct IH as [(Hall & Hlf) | (pre & b & post & -> & Hb & Hall & Hlf)].
    + rewrite Hlf. simpl.
      destruct (failed (g a)) eqn:Hf.
      * right. exists [], a, l. apply failed_true in Hf. auto.
      * left. apply failed_false in Hf. split; [constructor; auto | done].
    + rewrite Hlf. apply failed_true in Hb as Hb'. rewrite Hb'.
      right. exists (a :: pre), b, post. auto.
Qed.

(** ** [esp_transport_chain_execute] *)

Lemma chain_execute_fail_fast_run op l :
  forall fuel t w,
    chain (transports w) (Some t) l -> (length l <= fuel)%nat ->
    esp_transport_chain_execute fuel (Some t) (Some op) false w =
    Ret (first_failure op l) (logged (CallOp <$> upto_failure op l) w).
Proof.
  induction l as [|a l IH]; intros fuel t w Hch Hfuel; inversion Hch; subst.
  destruct fuel as [|fuel]; [simpl in Hfuel; lia|]. simpl in Hfuel.
  cbn [esp_transport_chain_execute].
  erewrite bind_Ret by (apply load_Some; eassumption).
  rewrite (bind_Ret _ _ _ _ _ (invoke_Ret CallOp op a w)).
  cbn [first_failure upto_failure].
  destruct (failed (op a)) eqn:Hf; [reflexivity|]. cbn [andb].
  match goal with H : linked _ _ (parent it) l |- _ => rename H into Hrest end.
  destruct (parent it) as [p|] eqn:Hp.
  - assert (exists l', l = p :: l') as [l' ->] by (inversion Hrest; eauto).
    erewrite bind_Ret by (apply IH; [exact Hrest | lia]).
    unfold ret. rewrite logged_logged. f_equal.
    change (ESP_OK =? ESP_OK) with true. rewrite andb_true_r.
    destruct (failed (first_failure op (p :: l'))) eqn:Hpe; [done|].
    now apply failed_false in Hpe.
  - inversion Hrest; subst. reflexivity.
Qed.

Lemma chain_execute_aggregate_run op l :
  forall fuel t w,
    chain (transports w) (Some t) l -> (length l <= fuel)%nat ->
    esp_transport_chain_execute fuel (Some t) (Some op) true w =
    Ret (last_failure op l) (logged (CallOp <$> l) w).
Proof.
  induction l as [|a l IH]; intros fuel t w Hch Hfuel; inversion Hch; subst.
  destruct fuel as [|fuel]; [simpl in Hfuel; lia|]. simpl in Hfuel.
  cbn [esp_transport_chain_execute].
  erewrite bind_Ret by (apply load_Some; eassumption).
  rewrite (bind_Ret _ _ _ _ _ (invoke_Ret CallOp op a w)).
  cbn [negb]. rewrite andb_false_r.
  match goal with H : linked _ _ (parent it) l |- _ => rename H into Hrest end.
  destruct (parent it) as [p|] eqn:Hp.
  - assert (exists l', l = p :: l') as [l' ->] by (inversion Hrest; eauto).
    erewrite bind_Ret by (apply IH; [exact Hrest | lia]).
    unfold ret. rewrite logged_logged. f_equal.
    rewrite andb_true_r. reflexivity.
  - inversion Hrest; subst. reflexivity.
Qed.

(** C3: fail-fast [execute] applies [op] along the parent chain in order,
    from the node toward the root, up to and including the first node on
    which [op] fails, and returns that node's error; the nodes beyond it are
    never passed to [op]; with no failing node it visits the whole chain and
    returns success. *)
Theorem chain_execute_fail_fast fuel w t op l :
  chain (transports w) (Some t) l -> (length l <= fuel)%nat ->
  exists err visited,
    esp_transport_chain_execute fuel (Some t) (Some op) false w =
      Ret err (logged (CallOp <$> visited) w) /\
    ((visited = l /\ Forall (fun a => op a = ESP_OK) l /\ err = ESP_OK) \/
     (exists pre a post,
        l = pre ++ a :: post /\ visited = pre ++ [a] /\
        Forall (fun b => op b = ESP_OK) pre /\ op a ≠ ESP_OK /\ err = op a)).
Proof.
  intros Hch Hfuel.
  exists (first_failure op l), (upto_failure op l).
  split; [now apply chain_execute_fail_fast_run|].
  destruct (first_failure_spec op l) as [(Hall & Hup & Hff) | (pre & a & post & Hl & Hup & Hall & Ha & Hff)].
  - left. auto.
  - right. exists pre, a, post. auto.
Qed.

(** C4: aggregating [execute] applies [op] to every node of the parent
    chain, whatever the intermediate results, and returns the error of the
    failing node closest to the root (the last failure evaluated), or success
    when no node failed. *)
Theorem chain_execute_aggregate fuel w t op l :
  chain (transports w) (Some t) l -> (length l <= fuel)%nat ->
  exists err,
    esp_transport_chain_execute fuel (Some t) (Some op) true w =
      Ret err (logged (CallOp <$> l) w) /\
    ((Forall (fun a => op a = ESP_OK) l /\ err = ESP_OK) \/
     (exists pre a post,
        l = pre ++ a :: post /\ op a ≠ ESP_OK /\
        Forall (fun b => op b = ESP_OK) post /\ err = op a)).
Proof.
  intros Hch Hfuel.
  exists (last_failure op l).
  split; [now apply chain_execute_aggregate_run|].
  destruct (last_failure_spec op l) as [(Hall & Hlf) | (pre & a & post & Hl & Ha & Hall & Hlf)].
  - left. auto.
  - right. exists pre, a, post. auto.
Qed.

(** ** [esp_transport_destroy_chain] *)

Lemma first_failure_ext g g' l :
  (forall b, b ∈ l -> g b = g' b) -> first_failure g l = first_failure g' l.
Proof.
  induction l as [|a l IH]; intros Hext; [done|]. simpl.
  rewrite <- (Hext a) by left. rewrite IH; [done|].
  intros b Hb. apply Hext. now right.
Qed.

Lemma filter_ext_in {A} (P Q : A -> Prop)
    `{!forall x, Decision (P x)} `{!forall x, Decision (Q x)} (l : list A) :
  (forall b, b ∈ l -> P b <-> Q b) -> filter P l = filter Q l.
Proof.
  induction l as [|a l IH]; intros Hext; [done|].
  rewrite !filter_cons.
  rewrite IH by (intros b Hb; apply Hext; now right).
  destruct (decide (P a)) as [HP|HP], (decide (Q a)) as [HQ|HQ]; try done;
    exfalso; apply (Hext a (list_elem_of_here _ _)) in HP || apply HP, (Hext a (list_elem_of_here _ _)); done.
Qed.

Lemma released_lookup l :
  forall hp a, released l hp !! a = if decide (a ∈ l) then None else hp !! a.
Proof.
  induction l as [|b l IH]; intros hp a.
  - rewrite decide_False by apply not_elem_of_nil. reflexivity.
  - unfold released in *. simpl. rewrite IH.
    destruct (decide (a ∈ l)) as [Hin|Hnin].
    + rewrite decide_True; [done | now right].
    + destruct (decide (a = b)) as [->|Hne].
      * rewrite decide_True by left. apply lookup_delete_eq.
      * rewrite decide_False; [now apply lookup_delete_ne|].
        intros [?|?]%elem_of_cons; done.
Qed.

Lemma destroy_code_delete hp a b :
  a ≠ b -> destroy_code (delete a hp) b = destroy_code hp b.
Proof. intros H. unfold destroy_code. now rewrite lookup_delete_ne. Qed.

Lemma has_destroy_delete hp a b :
  a ≠ b -> has_destroy (delete a hp) b = has_destroy hp b.
Proof. intros H. unfold has_destroy. now rewrite lookup_delete_ne. Qed.

Lemma destroy_chain_run l :
  forall fuel t w,
    chain (transports w) (Some t) l -> (length l <= fuel)%nat ->
    esp_transport_destroy_chain fuel (Some t) w =
    Ret (first_failure (destroy_code (transports w)) l)
        (mk_world (released l (transports w)) (registries w)
           (calls w ++
            (CallDestroy <$> filter (fun a => has_destroy (transports w) a = true) l))).
Proof.
  induction l as [|a l IH]; intros fuel t w Hch Hfuel; inversion Hch; subst.
  destruct fuel as [|fuel]; [simpl in Hfuel; lia|]. simpl in Hfuel.
  pose proof (linked_NoDup _ _ _ _ Hch) as [Hnotin _]%NoDup_cons.
  match goal with H : linked _ _ (parent ?i) l |- _ => rename H into Hrest; rename i into it end.
  match goal with H : transports w !! a = Some it |- _ => rename H into Ha end.
  cbn [esp_transport_destroy_chain].
  erewrite bind_Ret by (apply load_Some; eassumption).
  set (cs := match _destroy it with Some _ => [CallDestroy a] | None => [] end).
  set (err := match _destroy it with Some f => f a | None => ESP_OK end).
  erewrite (bind_Ret _ _ w err (logged cs w)); cycle 1.
  { subst cs err. destruct (_destroy it); [apply invoke_Ret|].
    unfold ret. now rewrite logged_nil. }
  erewrite bind_Ret by (eapply free_Some; exact Ha). cbn [logged transports registries calls].
  assert (Hcode : destroy_code (transports w) a = err)
    by (unfold destroy_code; now rewrite Ha).
  assert (Hcs : filter (fun b => has_destroy (transports w) b = true) (a :: l) =
                match _destroy it with Some _ => [a] | None => [] end ++
                filter (fun b => has_destroy (transports w) b = true) l).
  { assert (Hhd : has_destroy (transports w) a =
                  match _destroy it with Some _ => true | None => false end)
      by (unfold has_destroy; now rewrite Ha).
    destruct (_destroy it).
    - now rewrite filter_cons_True.
    - rewrite filter_cons_False; [done | congruence]. }
  assert (Hff : first_failure (destroy_code (delete a (transports w))) l =
                first_failure (destroy_code (transports w)) l).
  { apply first_failure_ext. intros b Hb. apply destroy_code_delete. congruence. }
  assert (Hfl : filter (fun b => has_destroy (delete a (transports w)) b = true) l =
                filter (fun b => has_destroy (transports w) b = true) l).
  { apply filter_ext_in. intros b Hb. rewrite has_destroy_delete; [done | congruence]. }
  cbn [first_failure]. rewrite Hcode, Hcs, fmap_app, app_assoc.
  replace (CallDestroy <$> match _destroy it with Some _ => [a] | None => [] end)
    with cs by (subst cs; now destruct (_destroy it)).
  destruct (parent it) as [p|] eqn:Hp.
  - assert (exists l', l = p :: l') as [l' ->] by (inversion Hrest; eauto).
    erewrite bind_Ret; cycle 1.
    { apply IH; [|lia]. cbn [transports]. now apply linked_delete. }
    cbn [transports registries calls]. rewrite Hff, Hfl. unfold ret. f_equal.
    destruct (failed err) eqn:Hf.
    + apply failed_true in Hf. apply Z.eqb_neq in Hf. rewrite Hf. now rewrite andb_false_r.
    + apply failed_false in Hf. rewrite Hf. change (ESP_OK =? ESP_OK) with true.
      rewrite andb_true_r. rewrite <- Hf.
      destruct (failed (first_failure _ _)) eqn:Hpe; [done|].
      apply failed_false in Hpe. congruence.
  - inversion Hrest; subst. unfold ret. cbn [first_failure filter released foldl].
    f_equal.
    + destruct (failed err) eqn:Hf; [done|]. now apply failed_false in Hf.
    + now rewrite filter_nil, fmap_nil, app_nil_r.
Qed.

Lemma called_once a l :
  NoDup l -> a ∈ l ->
  length (filter (fun c => c = CallDestroy a) (CallDestroy <$> l)) = 1%nat.
Proof.
  induction l as [|b l IH]; intros Hnd Hin; [inversion Hin|].
  apply NoDup_cons in Hnd as [Hb Hnd]. rewrite fmap_cons, filter_cons.
  destruct (decide (b = a)) as [->|Hne].
  - rewrite decide_True by done. simpl. f_equal.
    clear IH Hin Hnd. induction l as [|c l IH]; [done|].
    apply not_elem_of_cons in Hb as [Hc Hb].
    rewrite fmap_cons, filter_cons, decide_False by congruence. auto.
  - rewrite decide_False by congruence. apply IH; [done|].
    apply elem_of_cons in Hin as [?|?]; [congruence | done].
Qed.

(** C2: on a parent chain [l] starting at [t], [destroyChain] invokes the
    [destroy] callback of every node that has one exactly once, in chain
    order, whether or not earlier callbacks failed, releases every node, and
    returns the first error met along the chain, or success if no callback
    failed. *)
Theorem destroy_chain_complete fuel w t l :
  chain (transports w) (Some t) l -> (length l <= fuel)%nat ->
  exists err w' invoked,
    esp_transport_destroy_chain fuel (Some t) w = Ret err w' /\
    calls w' = calls w ++ (CallDestroy <$> invoked) /\
    invoked = filter (fun a => has_destroy (transports w) a = true) l /\
    (forall a, a ∈ l -> has_destroy (transports w) a = true ->
       length (filter (fun c => c = CallDestroy a) (CallDestroy <$> invoked)) = 1%nat) /\
    (forall a, a ∈ l -> transports w' !! a = None) /\
    ((Forall (fun a => destroy_code (transports w) a = ESP_OK) l /\ err = ESP_OK) \/
     (exists pre a post,
        l = pre ++ a :: post /\
        Forall (fun b => destroy_code (transports w) b = ESP_OK) pre /\
        destroy_code (transports w) a ≠ ESP_OK /\
        err = destroy_code (transports w) a)).
Proof.
  intros Hch Hfuel.
  eexists _, _, _. split; [apply destroy_chain_run; eassumption|].
  cbn [calls transports]. split; [reflexivity|]. split; [reflexivity|].
  pose proof (linked_NoDup _ _ _ _ Hch) as Hnd.
  split; [|split].
  - intros a Ha Hcb. apply called_once.
    + now apply NoDup_filter.
    + apply list_elem_of_filter. auto.
  - intros a Ha. rewrite released_lookup. now rewrite decide_True.
  - destruct (first_failure_spec (destroy_code (transports w)) l)
      as [(Hall & _ & Hff) | (pre & a & post & Hl & _ & Hall & Ha & Hff)].
    + left. auto.
    + right. exists pre, a, post. auto.
Qed.

(** ** Node construction and registration *)

Lemma bind_inv {A B} (m : M A) (k : A -> M B) w b w' :
  bind m k w = Ret b w' -> exists a w1, m w = Ret a w1 /\ k a w1 = Ret b w'.
Proof. unfold bind. destruct (m w) as [a w1| |]; [eauto | done | done]. Qed.

Lemma load_inv t w it w' :
  load t w = Ret it w' -> transports w !! t = Some it /\ w' = w.
Proof. unfold load. destruct (transports w !! t); [|done]. intros [= -> ->]. auto. Qed.

Lemma store_inv t it w u w' :
  store t it w = Ret u w' ->
  is_Some (transports w !! t) /\
  w' = mk_world (<[t := it]> (transports w)) (registries w) (calls w).
Proof. unfold store. destruct (transports w !! t); [|done]. intros [= _ <-]. eauto. Qed.

(** C10: a handle that [esp_transport_init] returns designates a record with
    ownership [EXCLUSIVE], no parent and no scheme label, whose remaining
    fields (port, context, function table, queue link and the other
    pointers) are zero or absent. *)
Theorem esp_transport_init_defaults mem w t w' :
  esp_transport_init mem w = Ret (Some t) w' ->
  exists it,
    transports w' !! t = Some it /\
    ownership it = ESP_TRANSPORT_OWNERSHIP_EXCLUSIVE /\
    parent it = None /\ scheme it = None /\
    port it = 0 /\ data it = None /\
    _connect it = None /\ _read it = None /\ _write it = None /\
    _close it = None /\ _poll_read it = None /\ _poll_write it = None /\
    _destroy it = None /\ _connect_async it = None /\
    _parent_transfer it = None /\ _get_socket it = None /\
    keep_alive_cfg it = None /\ foundation it = None /\ next it = None.
Proof.
  destruct mem as [a|]; [|discriminate]. unfold esp_transport_init.
  set (w1 := mk_world _ _ _).
  assert (H1 : transports w1 !! a = Some zeroed_item) by apply lookup_insert_eq.
  erewrite bind_Ret by (apply load_Some; exact H1).
  erewrite bind_Ret by (eapply store_Some; exact H1).
  set (w2 := mk_world _ _ _).
  assert (H2 : transports w2 !! a =
               Some (set_ownership ESP_TRANSPORT_OWNERSHIP_EXCLUSIVE zeroed_item))
    by apply lookup_insert_eq.
  erewrite bind_Ret by (apply load_Some; exact H2).
  erewrite bind_Ret by (eapply store_Some; exact H2).
  intros [= <- <-]. eexists. split; [apply lookup_insert_eq|].
  cbn. repeat split.
Qed.

Lemma esp_transport_init_defaults_witness :
  exists it,
    transports
      (mk_world (<[ws := set_parent None
                          (set_ownership ESP_TRANSPORT_OWNERSHIP_EXCLUSIVE zeroed_item)]>
                  (<[ws := set_ownership ESP_TRANSPORT_OWNERSHIP_EXCLUSIVE zeroed_item]>
                    (<[ws := zeroed_item]> ∅))) ∅ []) !! ws = Some it /\
    ownership it = ESP_TRANSPORT_OWNERSHIP_EXCLUSIVE /\
    parent it = None /\ scheme it = None /\
    port it = 0 /\ data it = None /\
    _connect it = None /\ _read it = None /\ _write it = None /\
    _close it = None /\ _poll_read it = None /\ _poll_write it = None /\
    _destroy it = None /\ _connect_async it = None /\
    _parent_transfer it = None /\ _get_socket it = None /\
    keep_alive_cfg it = None /\ foundation it = None /\ next it = None.
Proof.
  apply (esp_transport_init_defaults (Some ws) (mk_world ∅ ∅ [])).
  reflexivity.
Defined.

(** C8: when [esp_transport_list_add_ex] on a registry and a node returns
    [ESP_ERR_NO_MEM], the scheme copy was not allocated, the registry head
    and every queue link are as before, so the registry holds the same
    entries and the node was not appended; yet the node's ownership field
    already holds the requested value (and its scheme pointer is [NULL]). *)
Theorem list_add_ex_no_mem_not_atomic scheme_mem w h t scheme_arg o w' :
  esp_transport_list_add_ex scheme_mem (Some h) (Some t) scheme_arg o w =
    Ret ESP_ERR_NO_MEM w' ->
  scheme_mem = false /\
  registries w' = registries w /\
  (forall first l, stailq (transports w) first l -> stailq (transports w') first l) /\
  (forall a, a ≠ t -> transports w' !! a = transports w !! a) /\
  exists it,
    transports w !! t = Some it /\
    transports w' !! t = Some (set_scheme None (set_ownership o it)) /\
    ownership (set_scheme None (set_ownership o it)) = o.
Proof.
  unfold esp_transport_list_add_ex. intros H.
  apply bind_inv in H as (it & w1 & [Hit ->]%load_inv & H).
  apply bind_inv in H as (? & w2 & [_ ->]%store_inv & H).
  apply bind_inv in H as (it2 & ? & [Hit2 ->]%load_inv & H).
  cbn [transports] in Hit2. rewrite lookup_insert_eq in Hit2. injection Hit2 as <-.
  apply bind_inv in H as (? & w3 & [_ ->]%store_inv & H).
  cbn [transports registries calls] in H.
  apply bind_inv in H as (it3 & ? & [Hit3 ->]%load_inv & H).
  cbn [transports] in Hit3. rewrite lookup_insert_eq in Hit3. injection Hit3 as <-.
  destruct scheme_mem; cbn [set_scheme scheme] in H.
  - apply bind_inv in H as (? & ? & _ & H).
    apply bind_inv in H as (? & ? & _ & H). discriminate H.
  - injection H as <-. cbn [transports registries].
    rewrite insert_insert_eq.
    split; [done|]. split; [done|]. split; [|split].
    + intros first l Hl. eapply linked_frame; [exact Hl|].
      intros b itb _ Hb. destruct (decide (b = t)) as [->|Hne].
      * rewrite lookup_insert_eq. eexists. split; [done|].
        assert (itb = it) as -> by congruence. reflexivity.
      * rewrite lookup_insert_ne by done. eauto.
    + intros a Ha. now rewrite lookup_insert_ne.
    + exists it. split; [done|]. split; [apply lookup_insert_eq | reflexivity].
Qed.

(** ** [esp_transport_list_clean] *)

(** One turn of the cleanup loop on a live entry. *)
Lemma clean_entry_run a it w :
  transports w !! a = Some it ->
  exists w1,
    (if is_exclusive (ownership it) then
       let* _ := esp_transport_destroy (Some a) in ret tt
     else
       match scheme it with
       | Some _ => store a (set_scheme None it)
       | None => ret tt
       end) w = Ret tt w1 /\
    registries w1 = registries w /\
    calls w1 = calls w ++
      (if is_exclusive (ownership it) && has_destroy (transports w) a
       then [CallDestroy a] else []) /\
    (forall b, b ≠ a -> transports w1 !! b = transports w !! b) /\
    transports w1 !! a =
      (if is_exclusive (ownership it) then None else Some (set_scheme None it)).
Proof.
  intros Ha.
  assert (Hhd : has_destroy (transports w) a =
                match _destroy it with Some _ => true | None => false end)
    by (unfold has_destroy; now rewrite Ha).
  rewrite Hhd. destruct (is_exclusive (ownership it)); cbn [andb].
  - unfold esp_transport_destroy, invoke, record, free, load, bind, ret.
    rewrite Ha. destruct (_destroy it) as [f|]; cbn; rewrite Ha; eexists;
      (split; [reflexivity|]); cbn; rewrite ?app_nil_r;
      (repeat split; [|apply lookup_delete_eq]);
      intros b Hb; now apply lookup_delete_ne.
  - destruct (scheme it) as [s|] eqn:Hs.
    + eexists. split; [eapply store_Some; exact Ha|].
      cbn. rewrite app_nil_r. repeat split; [|apply lookup_insert_eq].
      intros b Hb. now apply lookup_insert_ne.
    + exists w. rewrite app_nil_r, set_scheme_id by done. auto.
Qed.

(** The effect of the whole loop on a well-formed queue with entries [l]. *)
Lemma list_clean_loop_run l :
  forall fuel first w,
    stailq (transports w) first l -> (length l <= fuel)%nat ->
    exists w',
      list_clean_loop fuel first w = Ret tt w' /\
      registries w' = registries w /\
      calls w' = calls w ++
        (CallDestroy <$>
         filter (fun a => owned_exclusively (transports w) a &&
                          has_destroy (transports w) a = true) l) /\
      (forall a, a ∉ l -> transports w' !! a = transports w !! a) /\
      (forall a it, a ∈ l -> transports w !! a = Some it ->
         transports w' !! a =
           if is_exclusive (ownership it) then None else Some (set_scheme None it)).
Proof.
  induction l as [|a l IH]; intros fuel first w Hq Hfuel; inversion Hq; subst.
  - exists w. split; [destruct fuel; reflexivity|].
    cbn. rewrite app_nil_r. repeat split; auto.
    intros a it Ha. inversion Ha.
  - destruct fuel as [|fuel]; [simpl in Hfuel; lia|]. simpl in Hfuel.
    pose proof (linked_NoDup _ _ _ _ Hq) as [Hnotin _]%NoDup_cons.
    match goal with H : linked _ _ (next ?i) l |- _ => rename H into Hrest; rename i into it end.
    match goal with H : transports w !! a = Some it |- _ => rename H into Ha end.
    destruct (clean_entry_run a it w Ha) as (w1 & Hrun & Hreg1 & Hcalls1 & Hother1 & Hself1).
    assert (Hq1 : stailq (transports w1) (next it) l).
    { eapply linked_frame; [exact Hrest|]. intros b itb Hb Hlk.
      exists itb. split; [|done]. rewrite Hother1; [done | congruence]. }
    destruct (IH fuel (next it) w1 Hq1 ltac:(lia))
      as (w' & Hloop & Hreg & Hcalls & Hother & Hin).
    exists w'. cbn [list_clean_loop].
    erewrite bind_Ret by (apply load_Some; exact Ha).
    split; [erewrite bind_Ret by exact Hrun; exact Hloop|].
    split; [congruence|]. split; [|split].
    + rewrite Hcalls, Hcalls1, <- app_assoc. f_equal.
      assert (Hfl : filter (fun b => owned_exclusively (transports w1) b &&
                                     has_destroy (transports w1) b = true) l =
                    filter (fun b => owned_exclusively (transports w) b &&
                                     has_destroy (transports w) b = true) l).
      { apply filter_ext_in. intros b Hb.
        unfold owned_exclusively, has_destroy.
        rewrite Hother1; [done | congruence]. }
      rewrite Hfl.
      assert (Hex : owned_exclusively (transports w) a = is_exclusive (ownership it))
        by (unfold owned_exclusively; now rewrite Ha).
      destruct (is_exclusive (ownership it) && has_destroy (transports w) a) eqn:Hb.
      * rewrite filter_cons_True by (now rewrite Hex). reflexivity.
      * rewrite filter_cons_False; [reflexivity|]. rewrite Hex, Hb. discriminate.
    + intros b [Hne Hb]%not_elem_of_cons. rewrite Hother by done. now apply Hother1.
    + intros b itb [->|Hb]%elem_of_cons Hlk.
      * rewrite Hother by done. assert (itb = it) as -> by congruence. exact Hself1.
      * apply Hin; [done|]. rewrite Hother1; [done | congruence].
Qed.

Lemma set_scheme_frame s it : only_scheme_differs it (set_scheme s it).
Proof. unfold only_scheme_differs. cbn. repeat split. Qed.

Lemma list_clean_run fuel w h hd l :
  registries w !! h = Some hd ->
  stailq (transports w) (stqh_first hd) l -> (length l <= fuel)%nat ->
  exists w1,
    list_clean_loop fuel (stqh_first hd) w = Ret tt w1 /\
    esp_transport_list_clean fuel (Some h) w =
      Ret ESP_OK (mk_world (transports w1)
                    (<[h := mk_list None None]> (registries w)) (calls w1)).
Proof.
  intros Hh Hq Hfuel.
  destruct (list_clean_loop_run l fuel _ w Hq Hfuel) as (w1 & Hloop & Hreg & _).
  exists w1. split; [done|]. unfold esp_transport_list_clean, STAILQ_INIT.
  unfold load_list at 1. unfold bind at 1. rewrite Hh.
  unfold bind at 1. rewrite Hloop.
  unfold bind, load_list, store_list, ret.
  rewrite Hreg, Hh. cbn beta iota. rewrite Hreg, Hh. reflexivity.
Qed.

(** C9: on a registry whose queue is well formed, [clean] returns [ESP_OK]
    and leaves the registry with no entries, whatever the entries'
    ownership tags and whatever the [destroy] callbacks return. *)
Theorem list_clean_empties_registry fuel w h hd l :
  registries w !! h = Some hd ->
  stailq (transports w) (stqh_first hd) l -> (length l <= fuel)%nat ->
  exists w',
    esp_transport_list_clean fuel (Some h) w = Ret ESP_OK w' /\
    registries w' !! h = Some (mk_list None None) /\
    (forall hd' l', registries w' !! h = Some hd' ->
       stailq (transports w') (stqh_first hd') l' -> l' = []).
Proof.
  intros Hh Hq Hfuel.
  destruct (list_clean_run fuel w h hd l Hh Hq Hfuel) as (w1 & _ & Hrun).
  eexists. split; [exact Hrun|]. cbn [registries transports].
  rewrite lookup_insert_eq. split; [done|].
  intros hd' l' [= <-] Hl'. now inversion Hl'.
Qed.

(** C7: [clean] leaves a [NONE]-tagged entry's node allocated, with its
    scheme label released and every other field as before, and does not
    invoke its [destroy] callback; an [EXCLUSIVE]-tagged entry's node is torn
    down: its [destroy] callback, if any, is invoked exactly once and its
    record is released. *)
Theorem list_clean_respects_ownership fuel w h hd l :
  registries w !! h = Some hd ->
  stailq (transports w) (stqh_first hd) l -> (length l <= fuel)%nat ->
  exists w' invoked,
    esp_transport_list_clean fuel (Some h) w = Ret ESP_OK w' /\
    calls w' = calls w ++ (CallDestroy <$> invoked) /\
    (forall a it,
       a ∈ l -> transports w !! a = Some it ->
       ownership it = ESP_TRANSPORT_OWNERSHIP_NONE ->
       (a ∉ invoked) /\
       (exists it', transports w' !! a = Some it' /\
                    scheme it' = None /\ only_scheme_differs it it')) /\
    (forall a it,
       a ∈ l -> transports w !! a = Some it ->
       ownership it = ESP_TRANSPORT_OWNERSHIP_EXCLUSIVE ->
       transports w' !! a = None /\
       (is_Some (_destroy it) ->
        length (filter (fun c => c = CallDestroy a) (CallDestroy <$> invoked)) = 1%nat)).
Proof.
  intros Hh Hq Hfuel.
  destruct (list_clean_run fuel w h hd l Hh Hq Hfuel) as (w1 & Hloop & Hrun).
  destruct (list_clean_loop_run l fuel _ w Hq Hfuel)
    as (w1' & Hloop' & _ & Hcalls & _ & Hin).
  assert (w1' = w1) as -> by congruence.
  eexists _, _. split; [exact Hrun|]. cbn [calls transports].
  split; [exact Hcalls|].
  pose proof (linked_NoDup _ _ _ _ Hq) as Hnd.
  split.
  - intros a it Ha Hlk Hown. split.
    + intros [Hex _]%list_elem_of_filter.
      unfold owned_exclusively in Hex. rewrite Hlk, Hown in Hex. discriminate.
    + exists (set_scheme None it). rewrite (Hin a it Ha Hlk), Hown.
      split; [done|]. split; [done | apply set_scheme_frame].
  - intros a it Ha Hlk Hown. rewrite (Hin a it Ha Hlk), Hown.
    split; [done|]. intros [f Hf]. apply called_once.
    + now apply NoDup_filter.
    + apply list_elem_of_filter. split; [|done].
      unfold owned_exclusively, has_destroy. now rewrite Hlk, Hown, Hf.
Qed.

(** ** Small facts about the chain accessors *)

Lemma esp_transport_get_parent_null w :
  esp_transport_get_parent None w = Ret None w.
Proof. reflexivity. Qed.

Lemma esp_transport_get_parent_root t it w :
  transports w !! t = Some it -> parent it = None ->
  esp_transport_get_parent (Some t) w = Ret None w.
Proof.
  intros Ht Hp. unfold esp_transport_get_parent.
  erewrite bind_Ret by (apply load_Some; exact Ht). unfold ret. now rewrite Hp.
Qed.


Lemma esp_transport_chain_execute_null fuel op agg w :
  esp_transport_chain_execute (S fuel) None op agg w = Ret ESP_ERR_INVALID_ARG w.
Proof. reflexivity. Qed.

(** ** The end-to-end scenario *)

Ltac walk_links :=
  repeat (eapply linked_cons; [vm_compute; reflexivity|]); apply linked_nil.

Lemma layers_chain : chain (transports layers) (Some ws) [ws; ssl; tcp].
Proof. unfold chain. walk_links. Qed.

Lemma registered_entries :
  registries registered !! registry = Some (mk_list (Some tcp) (Some ws)) /\
  stailq (transports registered) (Some tcp) [tcp; ssl; ws].
Proof. split; [vm_compute; reflexivity | unfold stailq; walk_links]. Qed.

(** C1: the registry's full teardown of the chain [ws -> ssl -> tcp], with
    [tcp] and [ssl] registered as [NONE] and [ws] as [EXCLUSIVE], invokes the
    [destroy] callback of [ws] only; [ssl] and [tcp] stay allocated and their
    callbacks are never invoked.  Tearing the same chain down with
    [esp_transport_destroy_chain] invokes the three callbacks in the order
    [ws], [ssl], [tcp]. *)
Theorem registry_teardown_stops_at_top :
  code_of registry_teardown = Some ESP_OK /\
  calls_of registry_teardown = Some [CallDestroy ws] /\
  live_of [ws; ssl; tcp] registry_teardown = [ssl; tcp] /\
  calls_of chain_teardown = Some [CallDestroy ws; CallDestroy ssl; CallDestroy tcp] /\
  live_of [ws; ssl; tcp] chain_teardown = [].
Proof. repeat split; vm_compute; reflexivity. Qed.

Lemma chain_execute_fail_fast_witness :
  exists err visited,
    esp_transport_chain_execute 3 (Some ws) (Some fails_on_ssl) false layers =
      Ret err (logged (CallOp <$> visited) layers) /\
    ((visited = [ws; ssl; tcp] /\
      Forall (fun a => fails_on_ssl a = ESP_OK) [ws; ssl; tcp] /\ err = ESP_OK) \/
     (exists pre a post,
        [ws; ssl; tcp] = pre ++ a :: post /\ visited = pre ++ [a] /\
        Forall (fun b => fails_on_ssl b = ESP_OK) pre /\
        fails_on_ssl a ≠ ESP_OK /\ err = fails_on_ssl a)).
Proof.
  apply (chain_execute_fail_fast 3 layers ws fails_on_ssl [ws; ssl; tcp]).
  - unfold chain. walk_links.
  - apply le_n.
Defined.

Lemma chain_execute_aggregate_witness :
  exists err,
    esp_transport_chain_execute 3 (Some ws) (Some fails_on_ssl) true layers =
      Ret err (logged (CallOp <$> [ws; ssl; tcp]) layers) /\
    ((Forall (fun a => fails_on_ssl a = ESP_OK) [ws; ssl; tcp] /\ err = ESP_OK) \/
     (exists pre a post,
        [ws; ssl; tcp] = pre ++ a :: post /\ fails_on_ssl a ≠ ESP_OK /\
        Forall (fun b => fails_on_ssl b = ESP_OK) post /\ err = fails_on_ssl a)).
Proof.
  apply (chain_execute_aggregate 3 layers ws fails_on_ssl [ws; ssl; tcp]).
  - unfold chain. walk_links.
  - apply le_n.
Defined.

Lemma destroy_chain_complete_witness :
  exists err w' invoked,
    esp_transport_destroy_chain 3 (Some ws) layers = Ret err w' /\
    calls w' = calls layers ++ (CallDestroy <$> invoked) /\
    invoked = filter (fun a => has_destroy (transports layers) a = true) [ws; ssl; tcp] /\
    (forall a, a ∈ [ws; ssl; tcp] -> has_destroy (transports layers) a = true ->
       length (filter (fun c => c = CallDestroy a) (CallDestroy <$> invoked)) = 1%nat) /\
    (forall a, a ∈ [ws; ssl; tcp] -> transports w' !! a = None) /\
    ((Forall (fun a => destroy_code (transports layers) a = ESP_OK) [ws; ssl; tcp] /\
      err = ESP_OK) \/
     (exists pre a post,
        [ws; ssl; tcp] = pre ++ a :: post /\
        Forall (fun b => destroy_code (transports layers) b = ESP_OK) pre /\
        destroy_code (transports layers) a ≠ ESP_OK /\
        err = destroy_code (transports layers) a)).
Proof.
  apply (destroy_chain_complete 3 layers ws [ws; ssl; tcp]).
  - unfold chain. walk_links.
  - apply le_n.
Defined.

Lemma list_add_ex_no_mem_not_atomic_witness :
  exists w',
    esp_transport_list_add_ex false (Some registry) (Some ws) "wss"
      ESP_TRANSPORT_OWNERSHIP_NONE layers = Ret ESP_ERR_NO_MEM w' /\
    registries w' = registries layers /\
    exists it,
      transports layers !! ws = Some it /\
      transports w' !! ws =
        Some (set_scheme None (set_ownership ESP_TRANSPORT_OWNERSHIP_NONE it)).
Proof.
  eexists. split; [vm_compute; reflexivity|].
  edestruct (list_add_ex_no_mem_not_atomic false layers registry ws "wss"
               ESP_TRANSPORT_OWNERSHIP_NONE)
    as (_ & Hreg & _ & _ & it & Hit & Hit' & _); [vm_compute; reflexivity|].
  split; [exact Hreg|]. exists it. split; [exact Hit | exact Hit'].
Defined.

Lemma list_clean_empties_registry_witness :
  exists w',
    esp_transport_list_clean 3 (Some registry) registered = Ret ESP_OK w' /\
    registries w' !! registry = Some (mk_list None None) /\
    (forall hd' l', registries w' !! registry = Some hd' ->
       stailq (transports w') (stqh_first hd') l' -> l' = []).
Proof.
  apply (list_clean_empties_registry 3 registered registry
           (mk_list (Some tcp) (Some ws)) [tcp; ssl; ws]).
  - vm_compute. reflexivity.
  - unfold stailq. walk_links.
  - apply le_n.
Defined.

Lemma list_clean_respects_ownership_witness :
  exists w' invoked,
    esp_transport_list_clean 3 (Some registry) registered = Ret ESP_OK w' /\
    calls w' = calls registered ++ (CallDestroy <$> invoked) /\
    (forall a it,
       a ∈ [tcp; ssl; ws] -> transports registered !! a = Some it ->
       ownership it = ESP_TRANSPORT_OWNERSHIP_NONE ->
       (a ∉ invoked) /\
       (exists it', transports w' !! a = Some it' /\
                    scheme it' = None /\ only_scheme_differs it it')) /\
    (forall a it,
       a ∈ [tcp; ssl; ws] -> transports registered !! a = Some it ->
       ownership it = ESP_TRANSPORT_OWNERSHIP_EXCLUSIVE ->
       transports w' !! a = None /\
       (is_Some (_destroy it) ->
        length (filter (fun c => c = CallDestroy a) (CallDestroy <$> invoked)) = 1%nat)).
Proof.
  apply (list_clean_respects_ownership 3 registered registry
           (mk_list (Some tcp) (Some ws)) [tcp; ssl; ws]).
  - vm_compute. reflexivity.
  - unfold stailq. walk_links.
  - apply le_n.
Defined.

(** ** Resource tracker *)

Section TrackerProperties.
Context {V Cfg : Type}.
Implicit Types (s : transport_resource_t V Cfg) (slots pre post : list (transport_resource_t V Cfg)).
Implicit Types (done : list (bool * transport_resource_t V Cfg)).

Lemma initialized_count_cons s slots :
  initialized_count (s :: slots) =
  ((if initialized s then 1 else 0) + initialized_count slots)%nat.
Proof.
  unfold initialized_count. rewrite filter_cons.
  destruct (initialized s); [rewrite decide_True by done | rewrite decide_False by done];
    reflexivity.
Qed.

Lemma initialized_count_app slots1 slots2 :
  initialized_count (slots1 ++ slots2) =
  (initialized_count slots1 + initialized_count slots2)%nat.
Proof. unfold initialized_count. now rewrite filter_app, length_app. Qed.

Lemma initialized_count_flags slots1 slots2 :
  initialized <$> slots1 = initialized <$> slots2 ->
  initialized_count slots1 = initialized_count slots2.
Proof.
  revert slots2. induction slots1 as [|s slots1 IH]; intros [|s2 slots2] H;
    try discriminate; [done|].
  rewrite !fmap_cons in H. injection H as Hs H.
  rewrite !initialized_count_cons, Hs. f_equal. now apply IH.
Qed.

Lemma initialized_count_zero slots :
  initialized_count slots = 0%nat <-> Forall (fun s => initialized s = false) slots.
Proof.
  induction slots as [|s slots IH]; [split; [constructor | done]|].
  rewrite initialized_count_cons, Forall_cons, <- IH.
  destruct (initialized s); simpl; split; try lia; intros [? ?]; done.
Qed.

Lemma wants_init_flag s : wants_init s = true -> initialized s = false.
Proof. unfold wants_init. destruct (initialized s); [discriminate | done]. Qed.

Lemma rolled_back_flag s : initialized (rolled_back s) = initialized s.
Proof.
  unfold rolled_back. destruct (wants_init s) eqn:H; [|done].
  apply wants_init_flag in H. now rewrite H.
Qed.

(** *** [init] *)

Lemma rollback_cons (m : bool) s done :
  rollback ((m, s) :: done) =
  (if m
   then ((m, slot_release s) :: fst (rollback done),
         CleanupCalled (length done) :: snd (rollback done))
   else ((m, s) :: fst (rollback done), snd (rollback done))).
Proof. cbn [rollback]. now destruct (rollback done). Qed.

Lemma init_walk_failure cfg todo :
  forall done log err slots' log',
    init_walk cfg done todo log = (err, slots', log') -> failed err = true ->
    exists pre s post f v,
      todo = pre ++ s :: post /\ wants_init s = true /\
      init s = Some f /\ f (target s) cfg = (err, v) /\
      slots' = reverse (snd <$> fst (rollback done)) ++
               (rolled_back <$> pre) ++ slot_write v s :: post /\
      log' = log ++ (InitCalled <$> fresh_slots (length done) pre) ++
             [InitCalled (length done + length pre)] ++
             (CleanupCalled <$> reverse (fresh_slots (length done) pre)) ++
             snd (rollback done).
Proof.
  induction todo as [|s0 todo IH]; intros done log err slots' log' Hrun Hfail.
  - cbn in Hrun. injection Hrun as <- _ _. discriminate.
  - cbn [init_walk] in Hrun.
    assert (Hskip : wants_init s0 = false ->
              init_walk cfg ((false, s0) :: done) todo log = (err, slots', log') ->
              exists pre s post f v,
                s0 :: todo = pre ++ s :: post /\ wants_init s = true /\
                init s = Some f /\ f (target s) cfg = (err, v) /\
                slots' = reverse (snd <$> fst (rollback done)) ++
                         (rolled_back <$> pre) ++ slot_write v s :: post /\
                log' = log ++ (InitCalled <$> fresh_slots (length done) pre) ++
                       [InitCalled (length done + length pre)] ++
                       (CleanupCalled <$> reverse (fresh_slots (length done) pre)) ++
                       snd (rollback done)).
    { intros Hw Hrun'.
      destruct (IH _ _ _ _ _ Hrun' Hfail)
        as (pre & s & post & f & v & -> & Hs & Hf & Hfv & -> & ->).
      exists (s0 :: pre), s, post, f, v.
      rewrite rollback_cons. cbn [fst snd fresh_slots length]. rewrite Hw.
      repeat split; try done.
      - rewrite fmap_cons, reverse_cons, <- app_assoc. cbn [snd].
        rewrite fmap_cons. unfold rolled_back at 2. now rewrite Hw.
      - now rewrite Nat.add_succ_r. }
    destruct (initialized s0) eqn:Hinit.
    { apply Hskip; [|done]. unfold wants_init. now rewrite Hinit. }
    destruct (init s0) as [f0|] eqn:Hf0.
    2:{ apply Hskip; [|done]. unfold wants_init. now rewrite Hf0, andb_false_r. }
    assert (Hw : wants_init s0 = true) by (unfold wants_init; now rewrite Hinit, Hf0).
    destruct (f0 (target s0) cfg) as [e v0] eqn:Hfv0.
    destruct (failed e) eqn:He.
    + destruct (rollback done) as [done' undo] eqn:Hrb.
      injection Hrun as <- <- <-.
      exists [], s0, todo, f0, v0. cbn [fst snd fresh_slots length fmap list_fmap reverse app].
      rewrite Nat.add_0_r, <- app_assoc. repeat split; done.
    + destruct (IH _ _ _ _ _ Hrun Hfail)
        as (pre & s & post & f & v & -> & Hs & Hf & Hfv & -> & ->).
      exists (s0 :: pre), s, post, f, v.
      rewrite rollback_cons. cbn [fst snd fresh_slots length]. rewrite Hw.
      repeat split; try done.
      * rewrite fmap_cons, reverse_cons, <- app_assoc. cbn [snd].
        rewrite fmap_cons. unfold rolled_back at 2. now rewrite Hw.
      * rewrite Nat.add_succ_r, fmap_cons, reverse_cons, fmap_app, <- !app_assoc.
        reflexivity.
Qed.
(** C5 (as amended): when [init] fails at slot index [k], [cleanup] is
    invoked on exactly the slots that this call had initialized, in reverse
    order, before the failure is returned; each of them is left uninitialized
    with an empty target, every other slot below [k] is untouched, and every
    slot's [initialized] flag is as it was before the call.  The count of
    initialized slots therefore equals the count before the call, and is 0
    when no slot was initialized before the call. *)
Theorem init_failure_rolls_back slots cfg err slots' log :
  transport_resources_init slots cfg = (err, slots', log) ->
  failed err = true ->
  exists pre s post f v,
    slots = pre ++ s :: post /\ wants_init s = true /\
    init s = Some f /\ f (target s) cfg = (err, v) /\
    log = (InitCalled <$> fresh_slots 0 pre) ++ [InitCalled (length pre)] ++
          (CleanupCalled <$> reverse (fresh_slots 0 pre)) /\
    slots' = (rolled_back <$> pre) ++ slot_write v s :: post /\
    initialized <$> slots' = initialized <$> slots /\
    initialized_count slots' = initialized_count slots /\
    (initialized_count slots = 0%nat -> initialized_count slots' = 0%nat).
Proof.
  intros Hrun Hfail. unfold transport_resources_init in Hrun.
  destruct (init_walk_failure _ _ _ _ _ _ _ Hrun Hfail)
    as (pre & s & post & f & v & -> & Hs & Hf & Hfv & -> & ->).
  exists pre, s, post, f, v. cbn [rollback fst snd length fmap list_fmap].
  rewrite reverse_nil, app_nil_r. cbn [app].
  assert (Hflags : initialized <$> (rolled_back <$> pre) ++ slot_write v s :: post =
                   initialized <$> pre ++ s :: post).
  { rewrite !fmap_app, !fmap_cons. f_equal.
    rewrite <- list_fmap_compose. apply list_fmap_ext. intros _ x _. apply rolled_back_flag. }
  pose proof (initialized_count_flags _ _ Hflags) as Hcount.
  repeat split; try done. intros H0. now rewrite Hcount.
Qed.
End TrackerProperties.

Lemma init_failure_rolls_back_witness :
  transport_resources_init [buffer_slot; failing_slot] tt =
    (ESP_ERR_NO_MEM, [buffer_slot; failing_slot],
     [InitCalled 0; InitCalled 1; CleanupCalled 0]) /\
  exists pre s post f v,
    [buffer_slot; failing_slot] = pre ++ s :: post /\ wants_init s = true /\
    init s = Some f /\ f (target s) tt = (ESP_ERR_NO_MEM, v) /\
    [InitCalled 0; InitCalled 1; CleanupCalled 0] =
      (InitCalled <$> fresh_slots 0 pre) ++ [InitCalled (length pre)] ++
      (CleanupCalled <$> reverse (fresh_slots 0 pre)) /\
    [buffer_slot; failing_slot] = (rolled_back <$> pre) ++ slot_write v s :: post /\
    initialized <$> [buffer_slot; failing_slot] = initialized <$> [buffer_slot; failing_slot] /\
    initialized_count [buffer_slot; failing_slot] = initialized_count [buffer_slot; failing_slot] /\
    (initialized_count [buffer_slot; failing_slot] = 0%nat ->
     initialized_count [buffer_slot; failing_slot] = 0%nat).
Proof.
  split; [reflexivity|].
  apply (init_failure_rolls_back [buffer_slot; failing_slot] tt ESP_ERR_NO_MEM
           [buffer_slot; failing_slot] [InitCalled 0; InitCalled 1; CleanupCalled 0]);
    reflexivity.
Defined.

(** C5 as stated fails: with slots 0 and 3 populated by hand, slot 1
    initialized by the call and slot 2 failing, the rollback cleans up slot 1
    only and two slots are still initialized after the failed call. *)
Lemma init_failure_keeps_earlier_slots :
  transport_resources_init
    [hostname_slot; buffer_slot; failing_slot; hostname_slot] tt =
    (ESP_ERR_NO_MEM,
     [hostname_slot; buffer_slot; failing_slot; hostname_slot],
     [InitCalled 1; InitCalled 2; CleanupCalled 1]) /\
  failed ESP_ERR_NO_MEM = true /\
  initialized_count [hostname_slot; buffer_slot; failing_slot; hostname_slot] = 2%nat.
Proof. repeat split. Qed.

(** ** [cleanup] *)

Section CleanupProperties.
Context {V Cfg : Type}.
Implicit Types (s : transport_resource_t V Cfg) (slots : list (transport_resource_t V Cfg)).

Lemma cleanup_walk_slots slots :
  forall i, fst (cleanup_walk i slots) = cleaned <$> slots.
Proof.
  induction slots as [|s slots IH]; intros i; [done|].
  cbn [cleanup_walk]. specialize (IH (S i)).
  destruct (cleanup_walk (S i) slots) as [rest' log]. cbn [fst] in IH. subst rest'.
  rewrite fmap_cons. unfold cleaned. now destruct (initialized s).
Qed.

Lemma cleanup_walk_noop slots :
  Forall (fun s => initialized s = false) slots ->
  forall i, cleanup_walk i slots = (slots, []).
Proof.
  induction 1 as [|s slots Hs _ IH]; intros i; [done|].
  cbn [cleanup_walk]. now rewrite IH, Hs.
Qed.

Lemma cleaned_flags slots :
  Forall (fun s => initialized s = false) (cleaned <$> slots).
Proof.
  apply Forall_fmap, Forall_true. intros s. unfold cleaned. cbn.
  now destruct (initialized s) eqn:H.
Qed.

Lemma cleanup_count slots :
  initialized_count (fst (transport_resources_cleanup slots)) = 0%nat.
Proof.
  unfold transport_resources_cleanup. rewrite cleanup_walk_slots.
  apply initialized_count_zero, cleaned_flags.
Qed.

(** C6: [cleanup] is idempotent: a second [cleanup] right after a first one
    invokes no callback and leaves the slots exactly as the first one did; on
    slots none of which is initialized, [cleanup] invokes no callback and
    changes nothing; and in any run [init; cleanup; init; cleanup; ...] no
    slot is initialized right after each [cleanup]. *)
Theorem cleanup_idempotent slots (cfgs : list Cfg) :
  transport_resources_cleanup (fst (transport_resources_cleanup slots)) =
    (fst (transport_resources_cleanup slots), []) /\
  (initialized_count slots = 0%nat ->
   transport_resources_cleanup slots = (slots, [])) /\
  Forall (fun after => initialized_count after = 0%nat)
    (reconnect_cycles cfgs slots).
Proof.
  split; [|split].
  - unfold transport_resources_cleanup. rewrite cleanup_walk_slots.
    apply cleanup_walk_noop, cleaned_flags.
  - intros H0. apply cleanup_walk_noop. now apply initialized_count_zero.
  - revert slots. induction cfgs as [|cfg cfgs IH]; intros slots; [constructor|].
    cbn [reconnect_cycles].
    destruct (transport_resources_init slots cfg) as [[err connected] log].
    constructor; [apply cleanup_count | apply IH].
Qed.
End CleanupProperties.

Lemma cleanup_idempotent_witness :
  transport_resources_cleanup
    (fst (transport_resources_cleanup [hostname_slot; failing_slot])) =
    (fst (transport_resources_cleanup [hostname_slot; failing_slot]), []) /\
  (initialized_count [hostname_slot; failing_slot] = 0%nat ->
   transport_resources_cleanup [hostname_slot; failing_slot] =
     ([hostname_slot; failing_slot], [])) /\
  Forall (fun after => initialized_count after = 0%nat)
    (reconnect_cycles [tt; tt; tt] [hostname_slot; failing_slot]).
Proof. apply (cleanup_idempotent [hostname_slot; failing_slot] [tt; tt; tt]). Defined.

(** * Further properties of the transport code *)

(** ** Registration *)

Lemma linked_snoc sel hp hp' l :
  forall start lt itl' t itt,
    linked sel hp start (l ++ [lt]) ->
    (forall b, b ∈ l -> hp' !! b = hp !! b) ->
    hp' !! lt = Some itl' -> sel itl' = Some t ->
    hp' !! t = Some itt -> sel itt = None ->
    linked sel hp' start ((l ++ [lt]) ++ [t]).
Proof.
  induction l as [|a l IH]; intros start lt itl' t itt Hl Hsame Hlt Hsel Ht Hnone;
    inversion Hl; subst.
  - econstructor; [exact Hlt|]. rewrite Hsel.
    econstructor; [exact Ht|]. rewrite Hnone. constructor.
  - cbn [app]. econstructor.
    + rewrite Hsame by left. eassumption.
    + eapply IH; eauto. intros b Hb. apply Hsame. now right.
Qed.

Lemma load_list_Some h hd w :
  registries w !! h = Some hd -> load_list h w = Ret hd w.
Proof. intros H. unfold load_list. now rewrite H. Qed.

Lemma store_list_Some h hd0 hd w :
  registries w !! h = Some hd0 ->
  store_list h hd w =
  Ret tt (mk_world (transports w) (<[h := hd]> (registries w)) (calls w)).
Proof. intros H. unfold store_list. now rewrite H. Qed.

(** [STAILQ_INSERT_TAIL] into an empty queue *)
Lemma insert_tail_empty w h hd t it :
  registries w !! h = Some hd -> stqh_last hd = None ->
  transports w !! t = Some it ->
  STAILQ_INSERT_TAIL h t w =
  Ret tt (mk_world (<[t := set_next None it]> (transports w))
            (<[h := mk_list (Some t) (Some t)]> (registries w)) (calls w)).
Proof.
  intros Hh Hlast Ht. unfold STAILQ_INSERT_TAIL.
  erewrite bind_Ret by (apply load_Some; eassumption).
  erewrite bind_Ret by (eapply store_Some; eassumption).
  erewrite bind_Ret by (apply load_list_Some; cbn [registries]; eassumption).
  rewrite Hlast.
  erewrite bind_Ret by (eapply store_list_Some; cbn [registries]; eassumption).
  erewrite bind_Ret by (apply load_list_Some; cbn [registries]; apply lookup_insert_eq).
  erewrite store_list_Some by (cbn [registries]; apply lookup_insert_eq).
  cbn [transports registries calls stqh_first]. now rewrite insert_insert_eq.
Qed.

(** [STAILQ_INSERT_TAIL] behind the element [tl] that the tail pointer
    designates; [itl] is the record of [tl] once [t]'s link was cleared. *)
Lemma insert_tail_nonempty w h hd t it tl itl :
  registries w !! h = Some hd -> stqh_last hd = Some tl ->
  transports w !! t = Some it ->
  <[t := set_next None it]> (transports w) !! tl = Some itl ->
  STAILQ_INSERT_TAIL h t w =
  Ret tt (mk_world
            (<[tl := set_next (Some t) itl]> (<[t := set_next None it]> (transports w)))
            (<[h := mk_list (stqh_first hd) (Some t)]> (registries w)) (calls w)).
Proof.
  intros Hh Hlast Ht Htl. unfold STAILQ_INSERT_TAIL.
  erewrite bind_Ret by (apply load_Some; eassumption).
  erewrite bind_Ret by (eapply store_Some; eassumption).
  erewrite bind_Ret by (apply load_list_Some; cbn [registries]; eassumption).
  rewrite Hlast.
  erewrite bind_Ret; cycle 1.
  { erewrite bind_Ret by (apply load_Some; cbn [transports]; eassumption).
    eapply store_Some. cbn [transports]. eassumption. }
  erewrite bind_Ret by (apply load_list_Some; cbn [registries]; eassumption).
  erewrite store_list_Some by (cbn [registries]; eassumption).
  reflexivity.
Qed.

(** The steps of [esp_transport_list_add_ex] before the queue insertion,
    when the scheme copy is allocated. *)
Lemma list_add_ex_prefix w h t it s o :
  transports w !! t = Some it ->
  esp_transport_list_add_ex true (Some h) (Some t) s o w =
  (let* _ := STAILQ_INSERT_TAIL h t in ret ESP_OK)
    (mk_world (<[t := set_scheme (Some s) (set_ownership o it)]> (transports w))
       (registries w) (calls w)).
Proof.
  intros Ht. unfold esp_transport_list_add_ex.
  erewrite bind_Ret by (apply load_Some; eassumption).
  erewrite bind_Ret by (eapply store_Some; eassumption).
  erewrite bind_Ret by (apply load_Some; cbn [transports]; apply lookup_insert_eq).
  erewrite bind_Ret by (eapply store_Some; cbn [transports]; apply lookup_insert_eq).
  cbn [transports registries calls]. rewrite insert_insert_eq.
  erewrite bind_Ret by (apply load_Some; cbn [transports]; apply lookup_insert_eq).
  cbn [scheme set_scheme].
  erewrite bind_Ret by (eapply store_Some; cbn [transports]; apply lookup_insert_eq).
  cbn [transports registries calls]. rewrite insert_insert_eq. reflexivity.
Qed.

(** A successful registration appends: on a well-formed queue with entries
    [l], none of which is [t], the queue is well formed afterwards with
    entries [l ++ [t]]. *)
Lemma list_add_ex_run w h hd l t it s o :
  registries w !! h = Some hd ->
  wf_queue (transports w) hd l ->
  transports w !! t = Some it -> t ∉ l ->
  exists w' hd',
    esp_transport_list_add_ex true (Some h) (Some t) s o w = Ret ESP_OK w' /\
    calls w' = calls w /\
    registries w' = <[h := hd']> (registries w) /\
    wf_queue (transports w') hd' (l ++ [t]) /\
    transports w' !! t =
      Some (set_next None (set_scheme (Some s) (set_ownership o it))) /\
    (forall b, b ≠ t -> last l ≠ Some b -> transports w' !! b = transports w !! b) /\
    (forall tl itl, last l = Some tl -> transports w !! tl = Some itl ->
       transports w' !! tl = Some (set_next (Some t) itl)).
Proof.
  intros Hh [Hq Hlast] Ht Hnotin.
  rewrite (list_add_ex_prefix w h t it s o Ht).
  set (T := set_scheme (Some s) (set_ownership o it)).
  set (w1 := mk_world _ _ _).
  assert (Ht1 : transports w1 !! t = Some T) by apply lookup_insert_eq.
  destruct (last l) as [tl|] eqn:Hl.
  - apply last_Some in Hl as [l0 ->].
    assert (Hne : tl ≠ t) by (intros ->; apply Hnotin, elem_of_app; right; left).
    destruct (linked_live _ _ _ _ tl Hq) as [itl Hitl];
      [apply elem_of_app; right; left|].
    erewrite bind_Ret; cycle 1.
    { eapply (insert_tail_nonempty w1 h hd t T tl itl); try eassumption.
      subst w1. cbn [transports]. rewrite !lookup_insert_ne by done. exact Hitl. }
    subst w1.
    cbn [transports registries calls]. rewrite insert_insert_eq.
    eexists _, _. split; [reflexivity|]. cbn [transports registries calls].
    split; [done|]. split; [done|].
    pose proof (linked_NoDup _ _ _ _ Hq) as Hnd.
    apply NoDup_app in Hnd as (_ & Hdisj & _).
    split; [|split; [|split]].
    + split; [|cbn [stqh_last]; now rewrite last_snoc]. cbn [stqh_first].
      eapply (linked_snoc next (transports w)); [exact Hq | | | | |].
      * intros b Hb. rewrite !lookup_insert_ne; [done | | ].
        -- intros ->. apply Hnotin, elem_of_app. now left.
        -- intros ->. apply (Hdisj _ Hb). left.
      * apply lookup_insert_eq.
      * reflexivity.
      * rewrite lookup_insert_ne by done. apply lookup_insert_eq.
      * reflexivity.
    + rewrite lookup_insert_ne by done. now rewrite lookup_insert_eq.
    + intros b Hb Hb'. rewrite !lookup_insert_ne; [done | done | congruence].
    + intros tl' itl' [= <-] Hlk. rewrite lookup_insert_eq. congruence.
  - apply last_None in Hl as ->. inversion Hq as [Hfirst|]; subst.
    erewrite bind_Ret; cycle 1.
    { eapply (insert_tail_empty w1 h hd t T); eassumption. }
    subst w1. cbn [transports registries calls]. rewrite insert_insert_eq.
    eexists _, _. split; [reflexivity|]. cbn [transports registries calls].
    split; [done|]. split; [done|].
    split; [|split; [|split]].
    + split; [|reflexivity]. cbn [stqh_first app].
      econstructor; [apply lookup_insert_eq|]. constructor.
    + apply lookup_insert_eq.
    + intros b Hb _. now rewrite lookup_insert_ne.
    + intros tl' itl' [=].
Qed.

(** X1: a successful [esp_transport_list_add_ex] of a live node that is not
    yet an entry appends it: the registry stays a well-formed queue, its
    entries are the old ones followed by the node (insertion order), no
    callback is invoked, and the node carries the requested ownership, a copy
    of the scheme and a cleared queue link. *)
Theorem list_add_ex_appends w h hd l t it s o :
  registries w !! h = Some hd ->
  wf_queue (transports w) hd l ->
  transports w !! t = Some it -> t ∉ l ->
  exists w' hd' it',
    esp_transport_list_add_ex true (Some h) (Some t) s o w = Ret ESP_OK w' /\
    registries w' !! h = Some hd' /\
    wf_queue (transports w') hd' (l ++ [t]) /\
    calls w' = calls w /\
    transports w' !! t = Some it' /\
    ownership it' = o /\ scheme it' = Some s /\ next it' = None.
Proof.
  intros Hh Hq Ht Hnotin.
  destruct (list_add_ex_run w h hd l t it s o Hh Hq Ht Hnotin)
    as (w' & hd' & Hrun & Hcalls & Hreg & Hwf & Hnode & _).
  exists w', hd', (set_next None (set_scheme (Some s) (set_ownership o it))).
  rewrite Hreg, lookup_insert_eq. repeat split; try done; apply Hwf.
Qed.

Lemma list_add_ex_appends_witness :
  exists w' hd' it',
    esp_transport_list_add_ex true (Some registry) (Some tcp) "_tcp"
      ESP_TRANSPORT_OWNERSHIP_NONE layers = Ret ESP_OK w' /\
    registries w' !! registry = Some hd' /\
    wf_queue (transports w') hd' ([] ++ [tcp]) /\
    calls w' = calls layers /\
    transports w' !! tcp = Some it' /\
    ownership it' = ESP_TRANSPORT_OWNERSHIP_NONE /\
    scheme it' = Some "_tcp" /\ next it' = None.
Proof.
  apply (list_add_ex_appends layers registry (mk_list None None) [] tcp (layer None)).
  - vm_compute. reflexivity.
  - split; [constructor | reflexivity].
  - vm_compute. reflexivity.
  - apply not_elem_of_nil.
Defined.



(** X3: [esp_transport_list_add_ex] does not check whether the node is
    already the last entry: registering the current tail again succeeds and
    leaves the node's queue link pointing at the node itself. *)
Theorem list_add_ex_tail_again w h hd t it s o :
  registries w !! h = Some hd -> stqh_last hd = Some t ->
  transports w !! t = Some it ->
  exists w' it',
    esp_transport_list_add_ex true (Some h) (Some t) s o w = Ret ESP_OK w' /\
    registries w' !! h = Some (mk_list (stqh_first hd) (Some t)) /\
    transports w' !! t = Some it' /\ next it' = Some t /\ ownership it' = o.
Proof.
  intros Hh Hlast Ht.
  rewrite (list_add_ex_prefix w h t it s o Ht).
  erewrite bind_Ret; cycle 1.
  { eapply insert_tail_nonempty; cbn [transports registries]; try eassumption;
      apply lookup_insert_eq. }
  eexists _, _. split; [reflexivity|]. cbn [transports registries].
  rewrite !lookup_insert_eq. repeat split.
Qed.

Lemma list_add_ex_tail_again_witness :
  exists w' it',
    esp_transport_list_add_ex true (Some registry) (Some ws) "wss"
      ESP_TRANSPORT_OWNERSHIP_NONE registered = Ret ESP_OK w' /\
    registries w' !! registry = Some (mk_list (Some tcp) (Some ws)) /\
    transports w' !! ws = Some it' /\ next it' = Some ws /\
    ownership it' = ESP_TRANSPORT_OWNERSHIP_NONE.
Proof.
  eapply (list_add_ex_tail_again registered registry (mk_list (Some tcp) (Some ws)) ws).
  - vm_compute. reflexivity.
  - reflexivity.
  - vm_compute. reflexivity.
Defined.

(** ** A registry with a self-linked entry *)

Lemma linked_app_segment sel hp l0 :
  forall start t,
    linked sel hp start (l0 ++ [t]) -> segment sel hp start l0 (Some t).
Proof.
  induction l0 as [|a l0 IH]; intros start t Hl; inversion Hl; subst.
  - constructor.
  - econstructor; [eassumption|]. now apply IH.
Qed.

Lemma segment_frame sel hp hp' start l stop :
  segment sel hp start l stop ->
  (forall b, b ∈ l -> hp' !! b = hp !! b) ->
  segment sel hp' start l stop.
Proof.
  induction 1 as [|a it l stop Ha Hl IH]; intros Hsame; [constructor|].
  econstructor.
  - rewrite Hsame by left. exact Ha.
  - apply IH. intros b Hb. apply Hsame. now right.
Qed.

Lemma bind_Diverge {A B} (m : M A) (k : A -> M B) w a w1 :
  m w = Ret a w1 -> k a w1 = Diverge -> bind m k w = Diverge.
Proof. intros Hm Hk. unfold bind. now rewrite Hm. Qed.

(** The cleanup loop never leaves a self-linked entry that it does not own
    exclusively. *)
Lemma list_clean_loop_self t :
  forall fuel w it,
    transports w !! t = Some it -> next it = Some t ->
    is_exclusive (ownership it) = false ->
    list_clean_loop fuel (Some t) w = Diverge.
Proof.
  induction fuel as [|fuel IH]; intros w it Ht Hnext Hown; [reflexivity|].
  cbn [list_clean_loop].
  erewrite bind_Ret by (apply load_Some; exact Ht).
  destruct (clean_entry_run t it w Ht) as (w1 & Hrun & _ & _ & _ & Hself).
  rewrite Hown in Hself. rewrite Hnext.
  eapply bind_Diverge; [exact Hrun|].
  eapply IH; [exact Hself | exact Hnext | exact Hown].
Qed.

(** ... nor does it when it reaches such an entry after the entries [l0]. *)
Lemma list_clean_loop_reaches_self t l0 :
  forall fuel first w it,
    segment next (transports w) first l0 (Some t) ->
    NoDup l0 -> t ∉ l0 ->
    transports w !! t = Some it -> next it = Some t ->
    is_exclusive (ownership it) = false ->
    list_clean_loop fuel first w = Diverge.
Proof.
  induction l0 as [|a l0 IH]; intros fuel first w it Hseg Hnd Hnotin Ht Hnext Hown;
    inversion Hseg; subst.
  - eapply list_clean_loop_self; eassumption.
  - destruct fuel as [|fuel]; [reflexivity|].
    apply NoDup_cons in Hnd as [Ha Hnd].
    apply not_elem_of_cons in Hnotin as [Hne Hnotin].
    match goal with H : transports w !! a = Some ?i |- _ =>
      rename H into Hlk; rename i into ita end.
    cbn [list_clean_loop].
    erewrite bind_Ret by (apply load_Some; exact Hlk).
    destruct (clean_entry_run a ita w Hlk) as (w1 & Hrun & _ & _ & Hother & _).
    eapply bind_Diverge; [exact Hrun|].
    eapply IH; try eassumption.
    + eapply segment_frame; [eassumption|].
      intros b Hb. apply Hother. congruence.
    + rewrite Hother by done. exact Ht.
Qed.

(** X4: once the last entry of a registry has been registered a second time
    with an ownership other than [EXCLUSIVE], [esp_transport_list_clean]
    does not terminate: the loop reaches the self-linked entry and stays on
    it, whatever the fuel. *)
Theorem list_clean_after_double_add_diverges w h hd l0 t it s o fuel :
  registries w !! h = Some hd ->
  wf_queue (transports w) hd (l0 ++ [t]) ->
  transports w !! t = Some it ->
  is_exclusive o = false ->
  (let* _ := esp_transport_list_add_ex true (Some h) (Some t) s o in
   esp_transport_list_clean fuel (Some h)) w = Diverge.
Proof.
  intros Hh [Hq Hlast] Ht Hown. rewrite last_snoc in Hlast.
  pose proof (linked_NoDup _ _ _ _ Hq) as Hnd.
  apply NoDup_app in Hnd as (Hnd0 & Hdisj & _).
  assert (Hnotin : t ∉ l0) by (intros Hin; apply (Hdisj t Hin); left).
  unfold bind at 1. rewrite (list_add_ex_prefix w h t it s o Ht).
  erewrite bind_Ret; cycle 1.
  { eapply insert_tail_nonempty; cbn [transports registries]; try eassumption;
      apply lookup_insert_eq. }
  unfold ret at 1. cbn [transports registries calls].
  unfold esp_transport_list_clean.
  erewrite bind_Ret by (apply load_list_Some; cbn [registries]; apply lookup_insert_eq).
  cbn [stqh_first]. unfold bind at 1.
  erewrite list_clean_loop_reaches_self; [reflexivity | | exact Hnd0 | exact Hnotin | | | ].
  - cbn [transports]. eapply segment_frame.
    + apply linked_app_segment. exact Hq.
    + intros b Hb. rewrite !lookup_insert_ne by (intros ->; done). done.
  - cbn [transports]. apply lookup_insert_eq.
  - reflexivity.
  - exact Hown.
Qed.

Lemma list_clean_after_double_add_diverges_witness :
  (let* _ := esp_transport_list_add_ex true (Some registry) (Some ws) "wss"
               ESP_TRANSPORT_OWNERSHIP_SHARED in
   esp_transport_list_clean 100 (Some registry)) registered = Diverge.
Proof.
  apply (list_clean_after_double_add_diverges registered registry
           (mk_list (Some tcp) (Some ws)) [tcp; ssl] ws
           (set_next None (set_scheme (Some "wss")
              (set_ownership ESP_TRANSPORT_OWNERSHIP_EXCLUSIVE (layer (Some ssl)))))).
  - vm_compute. reflexivity.
  - split; [unfold stailq; walk_links | reflexivity].
  - vm_compute. reflexivity.
  - reflexivity.
Defined.

(** ** More on [esp_transport_list_clean] *)

(** Everything the cleanup does, for a well-formed registry. *)
Lemma list_clean_summary fuel w h hd l :
  registries w !! h = Some hd ->
  stailq (transports w) (stqh_first hd) l -> (length l <= fuel)%nat ->
  exists w',
    esp_transport_list_clean fuel (Some h) w = Ret ESP_OK w' /\
    registries w' = <[h := mk_list None None]> (registries w) /\
    calls w' = calls w ++
      (CallDestroy <$>
       filter (fun a => owned_exclusively (transports w) a &&
                        has_destroy (transports w) a = true) l) /\
    (forall a, a ∉ l -> transports w' !! a = transports w !! a) /\
    (forall a it, a ∈ l -> transports w !! a = Some it ->
       transports w' !! a =
         if is_exclusive (ownership it) then None else Some (set_scheme None it)).
Proof.
  intros Hh Hq Hfuel.
  destruct (list_clean_run fuel w h hd l Hh Hq Hfuel) as (w1 & Hloop & Hrun).
  destruct (list_clean_loop_run l fuel _ w Hq Hfuel)
    as (w1' & Hloop' & _ & Hcalls & Hother & Hin).
  assert (w1' = w1) as -> by congruence.
  eexists. split; [exact Hrun|]. cbn [transports registries calls]. auto.
Qed.

(** X5: [esp_transport_list_clean] only touches the entries of the registry
    it is given: a transport that is not an entry, such as an unregistered
    parent of an [EXCLUSIVE] entry, keeps its record, every other registry
    keeps its head, and the only callbacks invoked are [destroy] callbacks
    of exclusively owned entries. *)
Theorem list_clean_frame fuel w h hd l :
  registries w !! h = Some hd ->
  stailq (transports w) (stqh_first hd) l -> (length l <= fuel)%nat ->
  exists w' invoked,
    esp_transport_list_clean fuel (Some h) w = Ret ESP_OK w' /\
    calls w' = calls w ++ (CallDestroy <$> invoked) /\
    (forall a, a ∈ invoked ->
       a ∈ l /\ owned_exclusively (transports w) a = true) /\
    (forall a, a ∉ l -> transports w' !! a = transports w !! a) /\
    (forall h', h' ≠ h -> registries w' !! h' = registries w !! h').
Proof.
  intros Hh Hq Hfuel.
  destruct (list_clean_summary fuel w h hd l Hh Hq Hfuel)
    as (w' & Hrun & Hreg & Hcalls & Hother & _).
  eexists _, _. split; [exact Hrun|]. split; [exact Hcalls|].
  split; [|split; [exact Hother|]].
  - intros a [Hp Ha]%list_elem_of_filter. split; [done|].
    now apply andb_true_iff in Hp as [? _].
  - intros h' Hne. rewrite Hreg. now apply lookup_insert_ne.
Qed.

Lemma list_clean_frame_witness :
  exists w' invoked,
    esp_transport_list_clean 3 (Some registry) registered = Ret ESP_OK w' /\
    calls w' = calls registered ++ (CallDestroy <$> invoked) /\
    (forall a, a ∈ invoked ->
       a ∈ [tcp; ssl; ws] /\ owned_exclusively (transports registered) a = true) /\
    (forall a, a ∉ [tcp; ssl; ws] -> transports w' !! a = transports registered !! a) /\
    (forall h', h' ≠ registry -> registries w' !! h' = registries registered !! h').
Proof.
  apply (list_clean_frame 3 registered registry (mk_list (Some tcp) (Some ws))
           [tcp; ssl; ws]).
  - vm_compute. reflexivity.
  - unfold stailq. walk_links.
  - apply le_n.
Defined.



(** X7: [esp_transport_list_clean] walks the entries in insertion order, so
    the [destroy] callbacks it invokes are those of the exclusively owned
    entries that have one, in the order in which they were registered. *)
Theorem list_clean_destroys_in_order fuel w h hd l :
  registries w !! h = Some hd ->
  stailq (transports w) (stqh_first hd) l -> (length l <= fuel)%nat ->
  exists w',
    esp_transport_list_clean fuel (Some h) w = Ret ESP_OK w' /\
    calls w' = calls w ++
      (CallDestroy <$>
       filter (fun a => owned_exclusively (transports w) a &&
                        has_destroy (transports w) a = true) l).
Proof.
  intros Hh Hq Hfuel.
  destruct (list_clean_summary fuel w h hd l Hh Hq Hfuel)
    as (w' & Hrun & _ & Hcalls & _).
  eauto.
Qed.

Lemma list_clean_destroys_in_order_witness :
  exists w',
    esp_transport_list_clean 3 (Some registry) registered = Ret ESP_OK w' /\
    calls w' = calls registered ++
      (CallDestroy <$>
       filter (fun a => owned_exclusively (transports registered) a &&
                        has_destroy (transports registered) a = true)
         [tcp; ssl; ws]).
Proof.
  apply (list_clean_destroys_in_order 3 registered registry
           (mk_list (Some tcp) (Some ws)) [tcp; ssl; ws]).
  - vm_compute. reflexivity.
  - unfold stailq. walk_links.
  - apply le_n.
Defined.

Lemma list_clean_empty fuel w h :
  registries w !! h = Some (mk_list None None) ->
  esp_transport_list_clean fuel (Some h) w = Ret ESP_OK w.
Proof.
  intros Hh. unfold esp_transport_list_clean, STAILQ_INIT.
  erewrite bind_Ret by (apply load_list_Some; exact Hh). cbn [stqh_first].
  erewrite bind_Ret by (destruct fuel; reflexivity).
  erewrite bind_Ret; cycle 1.
  { erewrite bind_Ret by (apply load_list_Some; exact Hh).
    eapply store_list_Some. exact Hh. }
  unfold ret. f_equal. destruct w as [hp regs cs]. cbn [transports registries calls] in *.
  f_equal. now apply insert_id.
Qed.

(** X8: [esp_transport_list_clean] is idempotent: once a registry has been
    cleaned, cleaning it again returns [ESP_OK], invokes nothing and changes
    nothing, whatever the fuel. *)
Theorem list_clean_twice fuel w h hd l :
  registries w !! h = Some hd ->
  stailq (transports w) (stqh_first hd) l -> (length l <= fuel)%nat ->
  exists w',
    esp_transport_list_clean fuel (Some h) w = Ret ESP_OK w' /\
    forall fuel', esp_transport_list_clean fuel' (Some h) w' = Ret ESP_OK w'.
Proof.
  intros Hh Hq Hfuel.
  destruct (list_clean_summary fuel w h hd l Hh Hq Hfuel)
    as (w' & Hrun & Hreg & _).
  exists w'. split; [exact Hrun|]. intros fuel'.
  apply list_clean_empty. rewrite Hreg. apply lookup_insert_eq.
Qed.

Lemma list_clean_twice_witness :
  exists w',
    esp_transport_list_clean 3 (Some registry) registered = Ret ESP_OK w' /\
    forall fuel', esp_transport_list_clean fuel' (Some registry) w' = Ret ESP_OK w'.
Proof.
  apply (list_clean_twice 3 registered registry (mk_list (Some tcp) (Some ws))
           [tcp; ssl; ws]).
  - vm_compute. reflexivity.
  - unfold stailq. walk_links.
  - apply le_n.
Defined.

(** X9: a cleaned registry can be used again: after
    [esp_transport_list_clean], registering a live node that was not an
    entry succeeds and the registry holds exactly that node. *)
Theorem list_clean_then_add fuel w h hd l t it s o :
  registries w !! h = Some hd ->
  stailq (transports w) (stqh_first hd) l -> (length l <= fuel)%nat ->
  transports w !! t = Some it -> t ∉ l ->
  exists w' w'' hd'',
    esp_transport_list_clean fuel (Some h) w = Ret ESP_OK w' /\
    esp_transport_list_add_ex true (Some h) (Some t) s o w' = Ret ESP_OK w'' /\
    registries w'' !! h = Some hd'' /\
    wf_queue (transports w'') hd'' [t].
Proof.
  intros Hh Hq Hfuel Ht Hnotin.
  destruct (list_clean_summary fuel w h hd l Hh Hq Hfuel)
    as (w' & Hrun & Hreg & _ & Hother & _).
  assert (Hh' : registries w' !! h = Some (mk_list None None))
    by (rewrite Hreg; apply lookup_insert_eq).
  assert (Ht' : transports w' !! t = Some it) by (now rewrite Hother).
  destruct (list_add_ex_run w' h (mk_list None None) [] t it s o Hh')
    as (w'' & hd'' & Hadd & _ & Hreg'' & Hwf & _);
    [split; [constructor | reflexivity] | exact Ht' | apply not_elem_of_nil |].
  exists w', w'', hd''. split; [exact Hrun|]. split; [exact Hadd|].
  split; [|exact Hwf]. rewrite Hreg''. apply lookup_insert_eq.
Qed.

Lemma list_clean_then_add_witness :
  exists w' w'' hd'',
    esp_transport_list_clean 2 (Some registry) lower_registered = Ret ESP_OK w' /\
    esp_transport_list_add_ex true (Some registry) (Some ws) "wss"
      ESP_TRANSPORT_OWNERSHIP_EXCLUSIVE w' = Ret ESP_OK w'' /\
    registries w'' !! registry = Some hd'' /\
    wf_queue (transports w'') hd'' [ws].
Proof.
  apply (list_clean_then_add 2 lower_registered registry
           (mk_list (Some tcp) (Some ssl)) [tcp; ssl] ws (layer (Some ssl))).
  - vm_compute. reflexivity.
  - unfold stailq. walk_links.
  - apply le_n.
  - vm_compute. reflexivity.
  - intros Hin. apply elem_of_cons in Hin as [Hin|Hin]; [discriminate|].
    apply elem_of_cons in Hin as [Hin|Hin]; [discriminate|].
    now apply elem_of_nil in Hin.
Defined.

(** ** More on the chain walkers *)

Lemma first_failure_ok g l :
  first_failure g l = ESP_OK <-> Forall (fun a => g a = ESP_OK) l.
Proof.
  induction l as [|a l IH]; cbn [first_failure]; [split; [constructor | done]|].
  rewrite Forall_cons. destruct (failed (g a)) eqn:Hf.
  - apply failed_true in Hf. split; [done | now intros [? _]].
  - apply failed_false in Hf. rewrite IH. split; [done | now intros [_ ?]].
Qed.

Lemma last_failure_ok g l :
  last_failure g l = ESP_OK <-> Forall (fun a => g a = ESP_OK) l.
Proof.
  induction l as [|a l IH]; cbn [last_failure]; [split; [constructor | done]|].
  rewrite Forall_cons. destruct (failed (last_failure g l)) eqn:Hf.
  - apply failed_true in Hf. split; [done|]. intros [_ H]. now apply IH in H.
  - apply failed_false in Hf. split; intros H.
    + split; [done | now apply IH].
    + now destruct H.
Qed.

Lemma upto_failure_prefix g l : upto_failure g l `prefix_of` l.
Proof.
  induction l as [|a l IH]; cbn [upto_failure]; [done|].
  destruct (failed (g a)); [|now apply prefix_cons].
  now exists l.
Qed.

Lemma upto_failure_all g l :
  Forall (fun a => g a = ESP_OK) l -> upto_failure g l = l.
Proof.
  induction 1 as [|a l Ha _ IH]; cbn [upto_failure]; [done|].
  apply failed_false in Ha. now rewrite Ha, IH.
Qed.

(** X10: on the same chain, the nodes a fail-fast [execute] applies [op] to
    are a prefix of those the aggregating one applies it to; the two agree
    on success (one returns [ESP_OK] exactly when the other does), and a
    successful fail-fast walk has visited the whole chain. *)
Theorem chain_execute_modes_agree fuel w t op l :
  chain (transports w) (Some t) l -> (length l <= fuel)%nat ->
  exists e1 e2 visited,
    esp_transport_chain_execute fuel (Some t) (Some op) false w =
      Ret e1 (logged (CallOp <$> visited) w) /\
    esp_transport_chain_execute fuel (Some t) (Some op) true w =
      Ret e2 (logged (CallOp <$> l) w) /\
    visited `prefix_of` l /\
    (e1 = ESP_OK <-> e2 = ESP_OK) /\
    (e1 = ESP_OK -> visited = l).
Proof.
  intros Hch Hfuel.
  exists (first_failure op l), (last_failure op l), (upto_failure op l).
  split; [now apply chain_execute_fail_fast_run|].
  split; [now apply chain_execute_aggregate_run|].
  split; [apply upto_failure_prefix|].
  rewrite first_failure_ok, last_failure_ok. split; [done|].
  apply upto_failure_all.
Qed.

Lemma chain_execute_modes_agree_witness :
  exists e1 e2 visited,
    esp_transport_chain_execute 3 (Some ws) (Some fails_on_ssl) false layers =
      Ret e1 (logged (CallOp <$> visited) layers) /\
    esp_transport_chain_execute 3 (Some ws) (Some fails_on_ssl) true layers =
      Ret e2 (logged (CallOp <$> [ws; ssl; tcp]) layers) /\
    visited `prefix_of` [ws; ssl; tcp] /\
    (e1 = ESP_OK <-> e2 = ESP_OK) /\
    (e1 = ESP_OK -> visited = [ws; ssl; tcp]).
Proof.
  apply (chain_execute_modes_agree 3 layers ws fails_on_ssl [ws; ssl; tcp]).
  - unfold chain. walk_links.
  - apply le_n.
Defined.

(** X11: [esp_transport_chain_execute] has no cycle detection.  From a node
    of a set of live transports that is closed under [parent] (so the parent
    links never reach [NULL]), the walk never returns when it aggregates
    errors or when [op] succeeds on the whole set: it runs out of any fuel. *)
Theorem chain_execute_endless (P : handle -> Prop) w op aggregate_errors :
  (forall a, P a ->
     exists it p, transports w !! a = Some it /\ parent it = Some p /\ P p) ->
  (aggregate_errors = true \/ forall a, P a -> op a = ESP_OK) ->
  forall fuel t, P t ->
    esp_transport_chain_execute fuel (Some t) (Some op) aggregate_errors w = Diverge.
Proof.
  intros Hclosed Hmode fuel.
  assert (Hgen : forall t cs, P t ->
            esp_transport_chain_execute fuel (Some t) (Some op) aggregate_errors
              (logged cs w) = Diverge).
  { induction fuel as [|fuel IH]; intros t cs Ht; [reflexivity|].
    destruct (Hclosed t Ht) as (it & p & Hlk & Hp & HPp).
    cbn [esp_transport_chain_execute].
    erewrite bind_Ret by (apply load_Some; exact Hlk).
    rewrite (bind_Ret _ _ _ _ _ (invoke_Ret CallOp op t (logged cs w))).
    assert (Hskip : failed (op t) && negb aggregate_errors = false).
    { destruct Hmode as [-> | Hok]; [apply andb_false_r|].
      rewrite (Hok t Ht). reflexivity. }
    rewrite Hskip, Hp, logged_logged.
    unfold bind. now rewrite IH. }
  intros t Ht. specialize (Hgen t [] Ht). now rewrite logged_nil in Hgen.
Qed.

Lemma chain_execute_endless_witness :
  esp_transport_chain_execute 1000 (Some tcp) (Some fails_on_ssl) false looped = Diverge.
Proof.
  apply (chain_execute_endless (fun a => a = tcp) looped fails_on_ssl false).
  - intros a ->. exists (self_parent tcp), tcp. repeat split.
  - right. intros a ->. reflexivity.
  - reflexivity.
Defined.

(** ** [esp_transport_close_chain] *)





(** ** More on [esp_transport_destroy_chain] *)

Lemma bind_Fault {A B} (m : M A) (k : A -> M B) w a w1 :
  m w = Ret a w1 -> k a w1 = Fault -> bind m k w = Fault.
Proof. intros Hm Hk. unfold bind. now rewrite Hm. Qed.

Lemma load_None {A} t (k : esp_transport_item_t -> M A) w :
  transports w !! t = None -> bind (load t) k w = Fault.
Proof. intros H. unfold bind, load. now rewrite H. Qed.

(** X13: [esp_transport_destroy_chain] releases the nodes of the chain and
    nothing else: every transport outside the chain keeps its record and the
    registries are not touched, so a registry entry that designates a node
    of the chain is left dangling. *)
Theorem destroy_chain_frame fuel w t l :
  chain (transports w) (Some t) l -> (length l <= fuel)%nat ->
  exists err w',
    esp_transport_destroy_chain fuel (Some t) w = Ret err w' /\
    registries w' = registries w /\
    (forall a, a ∉ l -> transports w' !! a = transports w !! a) /\
    (forall a, a ∈ l -> transports w' !! a = None).
Proof.
  intros Hch Hfuel. eexists _, _.
  split; [apply destroy_chain_run; eassumption|]. cbn [registries transports].
  split; [done|]. split; intros a Ha; rewrite released_lookup.
  - now rewrite decide_False.
  - now rewrite decide_True.
Qed.

Lemma destroy_chain_frame_witness :
  exists err w',
    esp_transport_destroy_chain 2 (Some ssl) registered = Ret err w' /\
    registries w' = registries registered /\
    (forall a, a ∉ [ssl; tcp] -> transports w' !! a = transports registered !! a) /\
    (forall a, a ∈ [ssl; tcp] -> transports w' !! a = None).
Proof.
  apply (destroy_chain_frame 2 registered ssl [ssl; tcp]).
  - unfold chain. walk_links.
  - apply le_n.
Defined.

(** X14: after [esp_transport_destroy_chain] the handle is invalid:
    destroying the same chain a second time dereferences the released top
    node. *)
Theorem destroy_chain_twice_faults fuel fuel' w t l :
  chain (transports w) (Some t) l -> (length l <= fuel)%nat ->
  (let* _ := esp_transport_destroy_chain fuel (Some t) in
   esp_transport_destroy_chain (S fuel') (Some t)) w = Fault.
Proof.
  intros Hch Hfuel.
  eapply bind_Fault; [apply destroy_chain_run; eassumption|].
  cbn [esp_transport_destroy_chain]. apply load_None. cbn [transports].
  rewrite released_lookup, decide_True; [done|].
  inversion Hch; subst. left.
Qed.

Lemma destroy_chain_twice_faults_witness :
  (let* _ := esp_transport_destroy_chain 3 (Some ws) in
   esp_transport_destroy_chain 3 (Some ws)) layers = Fault.
Proof.
  apply (destroy_chain_twice_faults 3 2 layers ws [ws; ssl; tcp]).
  - unfold chain. walk_links.
  - apply le_n.
Defined.

(** The cleanup loop dereferences a released record as soon as it reaches an
    entry that is no longer allocated; [w0] is the world in which the queue
    was well formed. *)
Lemma list_clean_loop_dangling q :
  forall fuel first w0 w',
    stailq (transports w0) first q ->
    (exists x, x ∈ q /\ transports w' !! x = None) ->
    (forall b, b ∈ q ->
       transports w' !! b = None \/ transports w' !! b = transports w0 !! b) ->
    (length q <= fuel)%nat ->
    list_clean_loop fuel first w' = Fault.
Proof.
  induction q as [|a q IH]; intros fuel first w0 w' Hq (x & Hx & Hnone) Hsame Hfuel.
  - inversion Hx.
  - pose proof (linked_NoDup _ _ _ _ Hq) as [Hnotin _]%NoDup_cons.
    inversion Hq; subst.
    match goal with H : transports w0 !! a = Some ?i |- _ =>
      rename H into Hlk; rename i into it end.
    destruct fuel as [|fuel]; [simpl in Hfuel; lia|]. simpl in Hfuel.
    cbn [list_clean_loop].
    destruct (Hsame a) as [Ha|Ha]; [left | now apply load_None |].
    rewrite Hlk in Ha.
    erewrite bind_Ret by (apply load_Some; exact Ha).
    destruct (clean_entry_run a it w' Ha) as (w1 & Hrun & _ & _ & Hother & _).
    eapply bind_Fault; [exact Hrun|].
    assert (Hxa : x ≠ a) by congruence.
    apply elem_of_cons in Hx as [?|Hx]; [done|].
    eapply (IH fuel (next it) w0 w1); [eassumption | | | lia].
    + exists x. split; [done|]. now rewrite Hother.
    + intros b Hb. rewrite Hother by congruence. apply Hsame. now right.
Qed.

(** X15: destroying a chain does not unregister its nodes.  If a registry
    holds an entry that belongs to the chain, a later
    [esp_transport_list_clean] of that registry dereferences the released
    node. *)
Theorem list_clean_after_destroy_chain_faults fuel fuel' w t l h hd q :
  chain (transports w) (Some t) l -> (length l <= fuel)%nat ->
  registries w !! h = Some hd ->
  stailq (transports w) (stqh_first hd) q -> (length q <= fuel')%nat ->
  (exists x, x ∈ q /\ x ∈ l) ->
  (let* _ := esp_transport_destroy_chain fuel (Some t) in
   esp_transport_list_clean fuel' (Some h)) w = Fault.
Proof.
  intros Hch Hfuel Hh Hq Hfuel' (x & Hxq & Hxl).
  eapply bind_Fault; [apply destroy_chain_run; eassumption|].
  unfold esp_transport_list_clean.
  erewrite bind_Ret by (apply load_list_Some; cbn [registries]; exact Hh).
  unfold bind at 1.
  erewrite (list_clean_loop_dangling q fuel' _ w); [reflexivity | exact Hq | | | exact Hfuel'].
  - exists x. split; [done|]. cbn [transports].
    rewrite released_lookup. now rewrite decide_True.
  - intros b Hb. cbn [transports]. rewrite released_lookup.
    destruct (decide (b ∈ l)); auto.
Qed.

Lemma list_clean_after_destroy_chain_faults_witness :
  (let* _ := esp_transport_destroy_chain 3 (Some ws) in
   esp_transport_list_clean 3 (Some registry)) registered = Fault.
Proof.
  apply (list_clean_after_destroy_chain_faults 3 3 registered ws [ws; ssl; tcp]
           registry (mk_list (Some tcp) (Some ws)) [tcp; ssl; ws]).
  - unfold chain. walk_links.
  - apply le_n.
  - vm_compute. reflexivity.
  - unfold stailq. walk_links.
  - apply le_n.
  - exists tcp. split; [left | right; right; left].
Defined.

(** X16: [esp_transport_destroy_chain] has no cycle detection either.  From
    a node of a set of transports in which every live member has its parent
    in the set, the teardown never returns a result: it ends up
    dereferencing a node it has already released, or runs out of fuel. *)
Theorem destroy_chain_endless (Q : handle -> Prop) fuel :
  forall w t,
    (forall a, Q a ->
       transports w !! a = None \/
       exists it p, transports w !! a = Some it /\ parent it = Some p /\ Q p) ->
    Q t ->
    esp_transport_destroy_chain fuel (Some t) w = Fault \/
    esp_transport_destroy_chain fuel (Some t) w = Diverge.
Proof.
  induction fuel as [|fuel IH]; intros w t Hinv Ht; [now right|].
  cbn [esp_transport_destroy_chain].
  destruct (Hinv t Ht) as [Hnone | (it & p & Hlk & Hp & HQp)].
  - left. now apply load_None.
  - erewrite bind_Ret by (apply load_Some; exact Hlk).
    set (cs := match _destroy it with Some _ => [CallDestroy t] | None => [] end).
    set (err := match _destroy it with Some f => f t | None => ESP_OK end).
    erewrite (bind_Ret _ _ w err (logged cs w)); cycle 1.
    { subst cs err. destruct (_destroy it); [apply invoke_Ret|].
      unfold ret. now rewrite logged_nil. }
    erewrite bind_Ret by (eapply free_Some; exact Hlk).
    cbn [logged transports registries calls]. rewrite Hp.
    set (w1 := mk_world _ _ _).
    destruct (IH w1 p) as [H|H]; [| exact HQp | | ].
    + intros a Ha. subst w1. cbn [transports].
      destruct (decide (a = t)) as [->|Hne]; [left; apply lookup_delete_eq|].
      rewrite lookup_delete_ne by done. now apply Hinv.
    + left. unfold bind. now rewrite H.
    + right. unfold bind. now rewrite H.
Qed.

Lemma destroy_chain_endless_witness :
  esp_transport_destroy_chain 5 (Some tcp) looped = Fault \/
  esp_transport_destroy_chain 5 (Some tcp) looped = Diverge.
Proof.
  apply (destroy_chain_endless (fun a => a = tcp) 5 looped tcp).
  - intros a ->. right. exists (self_parent tcp), tcp. repeat split.
  - reflexivity.
Defined.

(** ** More on [esp_transport_init] *)

Lemma esp_transport_init_run a w :
  esp_transport_init (Some a) w =
  Ret (Some a)
    (mk_world
       (<[a := set_parent None
                 (set_ownership ESP_TRANSPORT_OWNERSHIP_EXCLUSIVE zeroed_item)]>
          (transports w))
       (registries w) (calls w)).
Proof.
  unfold esp_transport_init.
  erewrite bind_Ret by (apply load_Some; cbn [transports]; apply lookup_insert_eq).
  erewrite bind_Ret by (eapply store_Some; cbn [transports]; apply lookup_insert_eq).
  erewrite bind_Ret by (apply load_Some; cbn [transports]; apply lookup_insert_eq).
  erewrite bind_Ret by (eapply store_Some; cbn [transports]; apply lookup_insert_eq).
  cbn [transports registries calls]. now rewrite !insert_insert_eq.
Qed.

(** X17: [esp_transport_init] returns [NULL] exactly when the allocation
    fails, and then changes nothing; when it succeeds it returns the
    allocated address and writes that record only: every other transport,
    the registries and the callback log are as before. *)
Theorem esp_transport_init_frame mem w r w' :
  esp_transport_init mem w = Ret r w' ->
  r = mem /\
  registries w' = registries w /\ calls w' = calls w /\
  (forall b, mem ≠ Some b -> transports w' !! b = transports w !! b).
Proof.
  destruct mem as [a|].
  - rewrite esp_transport_init_run. intros [= <- <-]. cbn [transports registries calls].
    repeat split. intros b Hb. apply lookup_insert_ne. congruence.
  - intros [= <- <-]. auto.
Qed.

Lemma esp_transport_init_frame_witness :
  Some spare = Some spare /\
  registries (mk_world
       (<[spare := set_parent None
                  (set_ownership ESP_TRANSPORT_OWNERSHIP_EXCLUSIVE zeroed_item)]>
          (transports lower_registered))
       (registries lower_registered) (calls lower_registered)) =
    registries lower_registered /\
  calls (mk_world
       (<[spare := set_parent None
                  (set_ownership ESP_TRANSPORT_OWNERSHIP_EXCLUSIVE zeroed_item)]>
          (transports lower_registered))
       (registries lower_registered) (calls lower_registered)) =
    calls lower_registered /\
  (forall b, Some spare ≠ Some b ->
     transports (mk_world
       (<[spare := set_parent None
                  (set_ownership ESP_TRANSPORT_OWNERSHIP_EXCLUSIVE zeroed_item)]>
          (transports lower_registered))
       (registries lower_registered) (calls lower_registered)) !! b =
     transports lower_registered !! b).
Proof.
  apply (esp_transport_init_frame (Some spare) lower_registered).
  apply esp_transport_init_run.
Defined.

(** X18: a transport fresh from [esp_transport_init] is the root of its own
    chain: [esp_transport_get_parent] on the returned handle yields [NULL],
    also when the allocation failed and the handle itself is [NULL]. *)
Theorem esp_transport_init_has_no_parent mem w :
  exists w',
    (let* t := esp_transport_init mem in esp_transport_get_parent t) w =
    Ret None w'.
Proof.
  destruct mem as [a|].
  - eexists. erewrite bind_Ret by apply esp_transport_init_run.
    unfold esp_transport_get_parent.
    erewrite bind_Ret by (apply load_Some; cbn [transports]; apply lookup_insert_eq).
    reflexivity.
  - eexists. reflexivity.
Qed.

(** X19: allocating a transport at a free address and tearing it down at
    once with [esp_transport_destroy_chain] returns [ESP_OK], invokes no
    callback and restores the world exactly. *)
Theorem esp_transport_init_destroy_chain a w fuel :
  transports w !! a = None ->
  (let* t := esp_transport_init (Some a) in
   esp_transport_destroy_chain (S fuel) t) w = Ret ESP_OK w.
Proof.
  intros Hfree. erewrite bind_Ret by apply esp_transport_init_run.
  cbn [esp_transport_destroy_chain].
  erewrite bind_Ret by (apply load_Some; cbn [transports]; apply lookup_insert_eq).
  cbn [_destroy parent set_parent set_ownership zeroed_item].
  erewrite bind_Ret by reflexivity.
  erewrite bind_Ret by (eapply free_Some; cbn [transports]; apply lookup_insert_eq).
  unfold ret. f_equal. destruct w as [hp regs cs]. cbn [transports registries calls] in *.
  f_equal. rewrite delete_insert_eq. now apply delete_id.
Qed.

Lemma esp_transport_init_destroy_chain_witness :
  (let* t := esp_transport_init (Some spare) in
   esp_transport_destroy_chain 1 t) lower_registered = Ret ESP_OK lower_registered.
Proof.
  apply (esp_transport_init_destroy_chain spare lower_registered 0).
  vm_compute. reflexivity.
Defined.

(** ** Absent handles *)

(** X20: every entry point rejects absent handles before touching anything:
    a [NULL] registry or node makes the registry functions, and a [NULL]
    node or operation makes the chain walkers, return
    [ESP_ERR_INVALID_ARG] with the world unchanged and no callback invoked
    (the other argument is not even dereferenced);
    [esp_transport_get_parent] of [NULL] is [NULL]. *)
Theorem null_handles_rejected w fuel mem h t s o op aggregate_errors :
  esp_transport_list_add_ex mem None t s o w = Ret ESP_ERR_INVALID_ARG w /\
  esp_transport_list_add_ex mem h None s o w = Ret ESP_ERR_INVALID_ARG w /\
  esp_transport_list_add mem None t s w = Ret ESP_ERR_INVALID_ARG w /\
  esp_transport_list_clean fuel None w = Ret ESP_ERR_INVALID_ARG w /\
  esp_transport_chain_execute (S fuel) None op aggregate_errors w =
    Ret ESP_ERR_INVALID_ARG w /\
  esp_transport_chain_execute (S fuel) t None aggregate_errors w =
    Ret ESP_ERR_INVALID_ARG w /\
  esp_transport_close_chain (S fuel) None w = Ret ESP_ERR_INVALID_ARG w /\
  esp_transport_destroy_chain (S fuel) None w = Ret ESP_ERR_INVALID_ARG w /\
  esp_transport_get_parent None w = Ret None w.
Proof.
  repeat split; try reflexivity.
  - now destruct h.
  - now destruct t.
Qed.

(** ** The default registration *)

(** X21: [esp_transport_list_add] registers with [EXCLUSIVE] ownership:
    after it, the node is the last entry of the registry, and the next
    [esp_transport_list_clean] releases the node and invokes its [destroy]
    callback, if it has one. *)
Theorem list_add_then_clean w h hd l t it s fuel :
  registries w !! h = Some hd ->
  wf_queue (transports w) hd l ->
  transports w !! t = Some it -> t ∉ l ->
  (length l < fuel)%nat ->
  exists w' hd' w'',
    esp_transport_list_add true (Some h) (Some t) s w = Ret ESP_OK w' /\
    registries w' !! h = Some hd' /\
    wf_queue (transports w') hd' (l ++ [t]) /\
    ownership <$> transports w' !! t = Some ESP_TRANSPORT_OWNERSHIP_EXCLUSIVE /\
    esp_transport_list_clean fuel (Some h) w' = Ret ESP_OK w'' /\
    transports w'' !! t = None /\
    (is_Some (_destroy it) -> CallDestroy t ∈ calls w'').
Proof.
  intros Hh Hq Ht Hnotin Hfuel. unfold esp_transport_list_add.
  destruct (list_add_ex_run w h hd l t it s ESP_TRANSPORT_OWNERSHIP_EXCLUSIVE
              Hh Hq Ht Hnotin)
    as (w' & hd' & Hrun & _ & Hreg & Hwf & Hnode & _).
  assert (Hh' : registries w' !! h = Some hd')
    by (rewrite Hreg; apply lookup_insert_eq).
  destruct (list_clean_summary fuel w' h hd' (l ++ [t]) Hh' (proj1 Hwf))
    as (w'' & Hclean & _ & Hcalls & _ & Hin);
    [rewrite length_app; simpl; lia|].
  assert (Htl : t ∈ l ++ [t]) by (apply elem_of_app; right; left).
  exists w', hd', w''. split; [exact Hrun|]. split; [exact Hh'|].
  split; [exact Hwf|]. split; [now rewrite Hnode|]. split; [exact Hclean|].
  split; [now rewrite (Hin t _ Htl Hnode)|].
  intros [f Hf]. rewrite Hcalls. apply elem_of_app. right.
  apply list_elem_of_fmap_2, list_elem_of_filter. split; [|exact Htl].
  unfold owned_exclusively, has_destroy. rewrite Hnode. cbn. now rewrite Hf.
Qed.

Lemma list_add_then_clean_witness :
  exists w' hd' w'',
    esp_transport_list_add true (Some registry) (Some ws) "wss" lower_registered =
      Ret ESP_OK w' /\
    registries w' !! registry = Some hd' /\
    wf_queue (transports w') hd' ([tcp; ssl] ++ [ws]) /\
    ownership <$> transports w' !! ws = Some ESP_TRANSPORT_OWNERSHIP_EXCLUSIVE /\
    esp_transport_list_clean 3 (Some registry) w' = Ret ESP_OK w'' /\
    transports w'' !! ws = None /\
    (is_Some (_destroy (layer (Some ssl))) -> CallDestroy ws ∈ calls w'').
Proof.
  apply (list_add_then_clean lower_registered registry
           (mk_list (Some tcp) (Some ssl)) [tcp; ssl] ws (layer (Some ssl)) "wss" 3).
  - vm_compute. reflexivity.
  - split; [unfold stailq; walk_links | reflexivity].
  - vm_compute. reflexivity.
  - intros Hin. apply elem_of_cons in Hin as [Hin|Hin]; [discriminate|].
    apply elem_of_cons in Hin as [Hin|Hin]; [discriminate|].
    now apply elem_of_nil in Hin.
  - apply le_n.
Defined.
